(** * Uncertainty-aware reasoning engine

    A shallow embedding of [rag_system/processing/reasoning_engine.py]
    (class [UncertaintyAwareReasoningEngine]) and the properties its
    specification states about it.

    Python's [float] is IEEE-754 binary64 with round-to-nearest-even; it is
    embedded as Rocq's primitive [float], whose operations are that very
    arithmetic.  Dictionaries are [gmap]s (or association lists where the
    insertion order is visible), Python exceptions are an explicit error
    type, and the methods the class leaves to be implemented (entity
    seeding, graph neighbours, the scoring model, the database driver) are
    parameters of the functions that call them. *)

From Stdlib Require Import ZArith Lia List Bool.
From Stdlib Require Import Floats.
From stdpp Require Import gmap strings list fin_maps.

Set Warnings "-inexact-float,-register-all".

(** ** Python values and exceptions *)

Inductive pyerror :=
  | AttributeError
  | IndexError
  | KeyError
  | NameError
  | TypeError.

Inductive result (A : Type) :=
  | Ok (a : A)
  | Err (e : pyerror).
Arguments Ok {A} a.
Arguments Err {A} e.

#[global] Instance result_ret : MRet result := fun A a => Ok a.
#[global] Instance result_bind : MBind result := fun A B k r =>
  match r with
  | Ok a => k a
  | Err e => Err e
  end.
#[global] Instance result_fmap : FMap result := fun A B f r =>
  match r with
  | Ok a => Ok (f a)
  | Err e => Err e
  end.

Definition from_option {A : Type} (e : pyerror) (o : option A) : result A :=
  match o with
  | Some a => Ok a
  | None => Err e
  end.

(** The dynamically typed values that flow through the untyped parts of the
    class. *)
Inductive pyval :=
  | PNone
  | PInt (z : Z)
  | PFloat (f : float)
  | PStr (s : string)
  | PList (items : list pyval)
  | PDict (items : list (string * pyval))
  | PObject (class_name : string) (attrs : list (string * pyval)).

(** Python truth value testing. *)
Definition truthy (v : pyval) : bool :=
  match v with
  | PNone => false
  | PInt z => negb (z =? 0)%Z
  | PFloat f => negb (f =? 0)%float
  | PStr s => negb (String.eqb s "")
  | PList items => negb (bool_decide (length items = 0%nat))
  | PDict items => negb (bool_decide (length items = 0%nat))
  | PObject _ _ => true
  end.

Fixpoint assoc (name : string) (items : list (string * pyval)) : option pyval :=
  match items with
  | [] => None
  | (k, v) :: rest => if String.eqb k name then Some v else assoc name rest
  end.

(** Reading a variable: the function's locals, then the module's globals. No
    builtin is called [timestamp], [k], [query], [retrieved_info] or
    [activated_knowledge], the only names looked up below. *)
Definition load_name (scope : list (string * pyval)) (name : string)
    : result pyval :=
  from_option NameError (assoc name scope).

(** [obj.name] and [obj[key]]. *)
Definition get_attr (name : string) (v : pyval) : result pyval :=
  match v with
  | PObject _ attrs => from_option AttributeError (assoc name attrs)
  | _ => Err AttributeError
  end.

Definition get_item (key : string) (v : pyval) : result pyval :=
  match v with
  | PDict items => from_option KeyError (assoc key items)
  | _ => Err TypeError
  end.

(** [seq[:n]] for an [int] [n]: a negative bound counts from the end. *)
Definition slice_to {A : Type} (n : Z) (l : list A) : list A :=
  if (0 <=? n)%Z then take (Z.to_nat n) l
  else take (length l - Z.to_nat (- n)) l.

(** The names bound at module level by the imports and the class statement. *)
Definition module_globals : list (string * pyval) :=
  map (fun name => (name, PObject "object" []))
      ["np"; "Dict"; "Any"; "List"; "Tuple"; "datetime"; "UnifiedConfig";
       "RetrievalResult"; "UncertaintyAwareReasoningEngine"].

(** ** Binary64 values

    The primitive operations are specified by [SpecFloat] on the view
    [Prim2SF] of a float as a sign, a mantissa and an exponent.  A finite
    float has an exponent of at least -1074, so its value times [2^1074] is
    an integer: bounds are stated on that integer. *)

Module Binary64.

(** [0 <= x <= 1], as Python compares floats. *)
Definition in_unit_interval (x : float) : bool :=
  ((0 <=? x) && (x <=? 1))%float.

(** The record reached after shifting [M] right by [k] bits: the quotient,
    and the position of the remainder with respect to half a unit. *)
Definition shifted (M k : Z) (mrs : shr_record) : Prop :=
  (shr_m mrs = M / 2 ^ k /\
   match shr_r mrs, shr_s mrs with
   | false, false => M mod 2 ^ k = 0
   | false, true => 0 < 2 * (M mod 2 ^ k) < 2 ^ k
   | true, false => 2 * (M mod 2 ^ k) = 2 ^ k
   | true, true => 2 ^ k < 2 * (M mod 2 ^ k)
   end)%Z.

(** What [valid_binary] says of a mantissa and its exponent. *)
Definition canonical (m : positive) (e : Z) : Prop :=
  (-1074 <= e <= 971 /\ Zpos m < 2 ^ 53 /\ (-1074 < e -> 2 ^ 52 <= Zpos m))%Z.

(** Zeros of either sign and positive finite numbers. *)
Definition sf_nonneg (x : spec_float) : Prop :=
  match x with
  | S754_zero _ | S754_finite false _ _ => True
  | _ => False
  end.

(** The value of such a float, times [2^1074]. *)
Definition sf_val (x : spec_float) : Z :=
  match x with
  | S754_finite false m e => (Zpos m * 2 ^ (e + 1074))%Z
  | _ => 0%Z
  end.

(** A float between 0 and 1. *)
Definition unit_float (x : float) : Prop :=
  sf_nonneg (Prim2SF x) /\ (sf_val (Prim2SF x) <= 2 ^ 1074)%Z.

Definition zero_float (x : float) : Prop :=
  exists s, Prim2SF x = S754_zero s.

(** The mantissas of [1.0], of [1 - 0.1] and of [0.1]. *)
Definition one_m : positive := 4503599627370496.
Definition c9_m : positive := 8106479329266893.
Definition c1_m : positive := 7205759403792794.

End Binary64.

(** ** Causal edges *)

Module Causal.
Local Open Scope float_scope.

(** Modelled from the spec: the class of the objects stored in
    [causal_edges] is not among the sources, which only read and write their
    [strength]; the spec's data model gives an edge a strength and an
    observation count.  The objects are plain instances, hence true in a
    condition. *)
Record CausalEdge := {
  strength : float;
  observation_count : Z
}.

Definition set_strength (edge : CausalEdge) (s : float) : CausalEdge :=
  {| strength := s; observation_count := observation_count edge |}.

(** [update_causal_strength(self, source, target, observed_probability)]. The
    state is [self.causal_edges]; assigning to [edge.strength] mutates the
    object held by the dictionary. *)
Definition update_causal_strength
    (causal_edges : gmap (string * string) CausalEdge)
    (source target : string) (observed_probability : float)
    : gmap (string * string) CausalEdge :=
  match causal_edges !! (source, target) with
  | Some edge =>
      let learning_rate := 0.1 in
      <[(source, target) :=
          set_strength edge
            ((1 - learning_rate) * strength edge
             + learning_rate * observed_probability)]> causal_edges
  | None => causal_edges
  end.

(** A run of observations of one edge, oldest first. *)
Definition record_observations
    (causal_edges : gmap (string * string) CausalEdge)
    (source target : string) (observations : list float)
    : gmap (string * string) CausalEdge :=
  fold_left (fun edges p => update_causal_strength edges source target p)
            observations causal_edges.

(** What the spec's [recordObservation] asks for on an unseen pair. *)
Definition created_edge (observed_probability : float) : CausalEdge :=
  {| strength := observed_probability; observation_count := 1 |}.

End Causal.

(** ** Beam search *)

Module Beam.
Local Open Scope float_scope.

Definition entity := string.

(** An element of [beams]: a bare path before the first iteration, a
    [(path, score)] tuple after it. *)
Inductive beam :=
  | Path (path : list entity)
  | Scored (path : list entity) (score : float).

(** [sorted(candidates, key=lambda x: x[1], reverse=True)]: stable, so
    candidates with equal scores keep the order they were generated in. *)
Fixpoint insert_desc (x : list entity * float)
    (l : list (list entity * float)) : list (list entity * float) :=
  match l with
  | [] => [x]
  | y :: l' => if snd x <? snd y then y :: insert_desc x l' else x :: l
  end.

Definition sorted_desc (candidates : list (list entity * float))
    : list (list entity * float) :=
  foldr insert_desc [] candidates.

Section BeamSearch.
(** [self.get_initial_entities], [self.get_neighbors] and [self.llm]: left
    to be implemented by the class, they are parameters here. *)
Variable get_initial_entities : string -> result (list entity).
Variable get_neighbors : pyval -> result (list entity).
Variable llm : option (string -> list entity -> result float).

(** [beam[-1]] *)
Definition beam_last (b : beam) : result pyval :=
  match b with
  | Path path => from_option IndexError (PStr <$> last path)
  | Scored _ score => Ok (PFloat score)
  end.

(** [beam + [neighbor]]: a tuple and a list do not concatenate. *)
Definition beam_append (b : beam) (neighbor : entity)
    : result (list entity) :=
  match b with
  | Path path => Ok (path ++ [neighbor])
  | Scored _ _ => Err TypeError
  end.

Definition score_path (query : string) (new_beam : list entity)
    : result float :=
  match llm with
  | Some model => model query new_beam
  | None => Err AttributeError
  end.

(** The body of [for beam in beams] *)
Definition expand (query : string) (b : beam)
    : result (list (list entity * float)) :=
  last_entity ← beam_last b;
  neighbors ← get_neighbors last_entity;
  mapM (fun neighbor =>
          new_beam ← beam_append b neighbor;
          score ← score_path query new_beam;
          mret (new_beam, score)) neighbors.

(** One pass of [for _ in range(max_depth)] *)
Definition step (query : string) (beam_width : Z) (beams : list beam)
    : result (list beam) :=
  expansions ← mapM (expand query) beams;
  let candidates := concat expansions in
  mret (uncurry Scored <$> slice_to beam_width (sorted_desc candidates)).

Fixpoint iterate (n : nat) (query : string) (beam_width : Z)
    (beams : list beam) : result (list beam) :=
  match n with
  | O => Ok beams
  | S n' => beams' ← step query beam_width beams;
            iterate n' query beam_width beams'
  end.

Definition beam_search (query : string) (beam_width max_depth : Z)
    : result (list beam) :=
  initial_entities ← get_initial_entities query;
  iterate (Z.to_nat max_depth) query beam_width
          ((fun e => Path [e]) <$> initial_entities).
End BeamSearch.

(** What the signature promises: only [(path, score)] tuples. *)
Definition is_scored (b : beam) : bool :=
  match b with
  | Scored _ _ => true
  | Path _ => false
  end.

End Beam.

(** ** The reasoning pipeline *)

Module Pipeline.
Local Open Scope float_scope.

(** An item of [relevant_facts]: a dictionary with an ['uncertainty']. *)
Record fact := {
  fact_content : string;
  fact_uncertainty : float
}.

(** [step['content']]: the query text of an [interpret_query] step, or a
    knowledge dictionary, which may or may not have a ['relevant_facts']
    key. *)
Inductive content :=
  | ContentText (text : string)
  | ContentKnowledge (relevant_facts : option (list fact)).

Record reasoning_step := {
  step_type : string;
  step_content : content
}.

Section Estimate.
(** [np.mean], over a non-empty list of floats. *)
Variable np_mean : list float -> float.

(** [step['content'].get('relevant_facts', [])]: a [str] has no [get]. *)
Definition get_relevant_facts (c : content) : result (list fact) :=
  match c with
  | ContentKnowledge relevant_facts => Ok (default [] relevant_facts)
  | ContentText _ => Err AttributeError
  end.

Definition _estimate_uncertainty (step : reasoning_step) : result float :=
  if String.eqb (step_type step) "interpret_query" then
    Ok 0.1
  else if String.eqb (step_type step) "analyze_knowledge" then
    relevant_facts ← get_relevant_facts (step_content step);
    let knowledge_uncertainties := fact_uncertainty <$> relevant_facts in
    mret (match knowledge_uncertainties with
          | [] => 0.5
          | _ :: _ => np_mean knowledge_uncertainties
          end)
  else if String.eqb (step_type step) "synthesize_answer" then
    Ok 0.2
  else
    Ok 1.0.
End Estimate.

(** The body of the loop of [propagate_uncertainty]:
    [propagated_uncertainty *= (1 - step_uncertainty)]. *)
Definition accumulate (propagated_uncertainty step_uncertainty : float)
    : float :=
  propagated_uncertainty * (1 - step_uncertainty).

(** [propagate_uncertainty(self, reasoning_steps, uncertainties)]: the
    accumulator starts at [1.0], goes through the uncertainties in list
    order, and the result is [1 - accumulator]. *)
Definition propagate_uncertainty (reasoning_steps : list string)
    (uncertainties : list float) : float :=
  let propagated_uncertainty := fold_left accumulate uncertainties 1 in
  1 - propagated_uncertainty.

End Pipeline.

(** ** Attribution of the uncertainty to its sources *)

Module Attribution.
Local Open Scope float_scope.

(** An element of [detailed_steps]. *)
Record detailed_step := {
  type : string;
  result_text : string;
  uncertainty : float
}.

(** The builtin [sum]: left to right, from [0]. *)
Definition py_sum (values : list float) : float :=
  fold_left (fun acc v => acc + v) values 0.

(** [analyze_uncertainty_sources(self, detailed_steps)]. The [else] branch
    yields the integer [0], which is the float [0.0] in every comparison and
    sum. *)
Definition analyze_uncertainty_sources (detailed_steps : list detailed_step)
    : gmap string float :=
  let total_uncertainty := py_sum (uncertainty <$> detailed_steps) in
  fold_left
    (fun uncertainty_sources step =>
       let contribution :=
         if 0 <? total_uncertainty
         then uncertainty step / total_uncertainty
         else 0 in
       <[type step := contribution]> uncertainty_sources)
    detailed_steps ∅.

(** The uncertainty of the last step of a given type, if there is one. *)
Definition last_of_type (t : string) (detailed_steps : list detailed_step)
    : option float :=
  uncertainty <$>
    last (filter (fun step => type step = t) detailed_steps).

End Attribution.

(** ** The graph-backed [reason] and the placeholder block *)

Module Engine.
Local Open Scope float_scope.

(** [self.driver]: [session.run(cypher, **params)] yields records. *)
Record driver := {
  session_run : string -> list (string * pyval) -> list pyval
}.

(** The attributes set by [__init__]; [driver] and [llm] start as [None]. *)
Record engine := {
  config : pyval;
  engine_driver : option driver;
  causal_edges : gmap (string * string) Causal.CausalEdge;
  llm : option (string -> list Beam.entity -> result float)
}.

Definition self_object : pyval :=
  PObject "UncertaintyAwareReasoningEngine" [].

Definition cypher_at_time : string :=
  "CALL db.index.fulltext.queryNodes(nodeContent, $query) ... WHERE v.timestamp <= $timestamp ... LIMIT $k".
Definition cypher_latest : string :=
  "CALL db.index.fulltext.queryNodes(nodeContent, $query) ... LIMIT $k".

(** [RetrievalResult(id=record["id"], ...)] *)
Definition retrieval_result (record : pyval) : result pyval :=
  id ← get_item "id" record;
  content ← get_item "content" record;
  score ← get_item "score" record;
  uncertainty ← get_item "uncertainty" record;
  timestamp ← get_item "timestamp" record;
  version ← get_item "version" record;
  mret (PObject "RetrievalResult"
          [("id", id); ("content", content); ("score", score);
           ("uncertainty", uncertainty); ("timestamp", timestamp);
           ("version", version)]).

(** [reason(self, query, retrieved_info, activated_knowledge)]. *)
Definition reason (self : engine) (query : string)
    (retrieved_info : list pyval) (activated_knowledge : list (string * pyval))
    : result pyval :=
  let scope :=
    [("self", self_object); ("query", PStr query);
     ("retrieved_info", PList retrieved_info);
     ("activated_knowledge", PDict activated_knowledge)] ++ module_globals in
  session ← from_option AttributeError (engine_driver self);
  timestamp ← load_name scope "timestamp";
  records ←
    (if truthy timestamp then
       query' ← load_name scope "query";
       timestamp' ← load_name scope "timestamp";
       k ← load_name scope "k";
       mret (session_run session cypher_at_time
               [("query", query'); ("timestamp", timestamp'); ("k", k)])
     else
       query' ← load_name scope "query";
       k ← load_name scope "k";
       mret (session_run session cypher_latest
               [("query", query'); ("k", k)]));
  PList <$> mapM retrieval_result records.

Definition as_list (v : pyval) : result (list pyval) :=
  match v with
  | PList items => Ok items
  | _ => Err TypeError
  end.

Definition dict_keys (v : pyval) : result (list pyval) :=
  match v with
  | PDict items => Ok (PStr ∘ fst <$> items)
  | _ => Err AttributeError
  end.

(** [get_neighbors(self, entity)]: after [pass], the body goes on with the
    construction of the placeholder result. *)
Definition get_neighbors (self : engine) (entity : pyval) : result pyval :=
  let scope := [("self", self_object); ("entity", entity)] ++ module_globals in
  query ← load_name scope "query";
  retrieved_info ← load_name scope "retrieved_info";
  top ← slice_to 3 <$> as_list retrieved_info;
  supporting_evidence ← mapM (get_attr "content") top;
  activated_knowledge ← load_name scope "activated_knowledge";
  keys ← dict_keys activated_knowledge;
  let reasoning_result :=
    PDict [("query", query);
           ("conclusion", PStr "This is a placeholder conclusion.");
           ("confidence", PFloat 0.8);
           ("uncertainty", PFloat 0.2);
           ("supporting_evidence", PList supporting_evidence);
           ("activated_concepts", PList (slice_to 5 keys))] in
  mret reasoning_result.

End Engine.

(** ** The scenario of the specification's beam-search example *)

Module Scenario.
Local Open Scope float_scope.

(** Initial entities [X] and [Y]; every node has the neighbours [A] and [B];
    the four two-node paths score 0.9, 0.8, 0.7 and 0.6. *)
Definition get_initial_entities (query : string)
    : result (list Beam.entity) :=
  Ok ["X"; "Y"].

Definition get_neighbors (v : pyval) : result (list Beam.entity) :=
  Ok ["A"; "B"].

Definition score_path (query : string) (path : list Beam.entity)
    : result float :=
  Ok (if bool_decide (path = ["X"; "A"]) then 0.9
      else if bool_decide (path = ["X"; "B"]) then 0.8
      else if bool_decide (path = ["Y"; "A"]) then 0.7
      else if bool_decide (path = ["Y"; "B"]) then 0.6
      else 0.5).

Definition search : string -> Z -> Z -> result (list Beam.beam) :=
  Beam.beam_search get_initial_entities get_neighbors (Some score_path).

(** A seeding capability that finds nothing. *)
Definition no_entities (query : string) : result (list Beam.entity) :=
  Ok [].

(** An engine as [__init__] leaves it, and one with a driver plugged in. *)
Definition fresh_engine : Engine.engine :=
  {| Engine.config := PNone; Engine.engine_driver := None;
     Engine.causal_edges := ∅; Engine.llm := None |}.

Definition connected_engine : Engine.engine :=
  {| Engine.config := PNone;
     Engine.engine_driver :=
       Some {| Engine.session_run := fun _ _ => [] |};
     Engine.causal_edges := ∅; Engine.llm := None |}.

(** The arithmetic mean by a left-to-right sum, standing for [np.mean]. *)
Definition mean (values : list float) : float :=
  Attribution.py_sum values
  / PrimFloat.of_uint63 (Uint63.of_Z (Z.of_nat (length values))).

(** One step of each type of the default plan, and one of a type the
    pipeline does not know. *)
Definition interpret_step : Pipeline.reasoning_step :=
  {| Pipeline.step_type := "interpret_query";
     Pipeline.step_content := Pipeline.ContentText "q" |}.

Definition knowledge_facts : list Pipeline.fact :=
  [ {| Pipeline.fact_content := "f1"; Pipeline.fact_uncertainty := 0.25 |};
    {| Pipeline.fact_content := "f2"; Pipeline.fact_uncertainty := 0.5 |} ].

Definition knowledge_step : Pipeline.reasoning_step :=
  {| Pipeline.step_type := "analyze_knowledge";
     Pipeline.step_content := Pipeline.ContentKnowledge (Some knowledge_facts) |}.

Definition synthesize_step : Pipeline.reasoning_step :=
  {| Pipeline.step_type := "synthesize_answer";
     Pipeline.step_content := Pipeline.ContentKnowledge None |}.

Definition unknown_step : Pipeline.reasoning_step :=
  {| Pipeline.step_type := "verify_answer";
     Pipeline.step_content := Pipeline.ContentText "" |}.

(** Two executed steps of the same type, and two of different types. *)
Definition executed (t : string) (u : float) : Attribution.detailed_step :=
  {| Attribution.type := t;
     Attribution.result_text := "Executed step: " +:+ t;
     Attribution.uncertainty := u |}.

Definition repeated_steps : list Attribution.detailed_step :=
  [executed "analyze_knowledge" 0.5; executed "analyze_knowledge" 0.5].

Definition distinct_steps : list Attribution.detailed_step :=
  [executed "interpret_query" 0.1; executed "analyze_knowledge" 0.3].

(** An edge table with the single edge the spec's example starts from, and
    a run of observations. *)
Definition one_edge : gmap (string * string) Causal.CausalEdge :=
  {[("A", "B") := Causal.created_edge 0.9]}.

Definition observations : list float := [0.1; 1; 0].

End Scenario.

(** ** The confidence of a result and its conclusion *)

Module Conclusion.
Local Open Scope float_scope.

(** [1 - v] for a Python number [v]. *)
Definition one_minus (v : pyval) : result pyval :=
  match v with
  | PFloat f => Ok (PFloat (1 - f))
  | PInt z => Ok (PInt (1 - z))
  | _ => Err TypeError
  end.

(** [estimate_uncertainty(self, reasoning_result)] *)
Definition estimate_uncertainty (reasoning_result : gmap string pyval)
    : result pyval :=
  one_minus (default (PFloat 0.5) (reasoning_result !! "confidence")).

Definition characters (s : string) : list pyval :=
  (fun c => PStr (String c EmptyString)) <$> String.list_ascii_of_string s.

(** [v += s] for a string [s]: a string is extended, a list receives the
    characters one by one, anything else raises. *)
Definition iadd_str (v : pyval) (s : string) : result pyval :=
  match v with
  | PStr t => Ok (PStr (t +:+ s))
  | PList items => Ok (PList (items ++ characters s))
  | _ => Err TypeError
  end.

(** [adjust_conclusion(self, reasoning_result, uncertainty)]: the dictionary
    is updated in place and returned. *)
Definition adjust_conclusion (reasoning_result : gmap string pyval)
    (uncertainty : float) : result (gmap string pyval) :=
  if 0.5 <? uncertainty then
    conclusion ← from_option KeyError (reasoning_result !! "conclusion");
    conclusion' ← iadd_str conclusion " (High uncertainty)";
    mret (<["conclusion" := conclusion']> reasoning_result)
  else
    Ok reasoning_result.

End Conclusion.

(** ** The pipeline from a query to a trace *)

Module Trace.
Local Open Scope float_scope.

Definition newline : string := String (Ascii.ascii_of_nat 10) EmptyString.

(** [sep.join(items)] *)
Fixpoint join (sep : string) (items : list string) : string :=
  match items with
  | [] => ""
  | [item] => item
  | item :: rest => item +:+ sep +:+ join sep rest
  end.

(** A string without a line break. *)
Fixpoint single_line (s : string) : bool :=
  match s with
  | EmptyString => true
  | String c s' => negb (Ascii.eqb c (Ascii.ascii_of_nat 10)) && single_line s'
  end.

(** [_combine_reasoning_steps(self, steps)] *)
Definition _combine_reasoning_steps (steps : list string) : string :=
  join newline steps.

(** [_generate_reasoning_steps(self, query, constructed_knowledge)]: of the
    knowledge dictionary only the ['relevant_facts'] entry is ever read. *)
Definition _generate_reasoning_steps (query : string)
    (constructed_knowledge : option (list Pipeline.fact))
    : list Pipeline.reasoning_step :=
  [ {| Pipeline.step_type := "interpret_query";
       Pipeline.step_content := Pipeline.ContentText query |};
    {| Pipeline.step_type := "analyze_knowledge";
       Pipeline.step_content := Pipeline.ContentKnowledge constructed_knowledge |};
    {| Pipeline.step_type := "synthesize_answer";
       Pipeline.step_content := Pipeline.ContentKnowledge None |} ].

Section Run.
Variable np_mean : list float -> float.

(** [_execute_reasoning_step(self, step)] *)
Definition _execute_reasoning_step (step : Pipeline.reasoning_step)
    : result (string * float) :=
  let result := "Executed step: " +:+ Pipeline.step_type step in
  uncertainty ← Pipeline._estimate_uncertainty np_mean step;
  mret (result, uncertainty).

(** The body of the loop of [reason_with_uncertainty], which appends to the
    three lists at once. *)
Definition run_step (step : Pipeline.reasoning_step)
    : result Attribution.detailed_step :=
  '(step_result, step_uncertainty) ← _execute_reasoning_step step;
  mret {| Attribution.type := Pipeline.step_type step;
          Attribution.result_text := step_result;
          Attribution.uncertainty := step_uncertainty |}.

(** [reason_with_uncertainty(self, query, constructed_knowledge, timestamp)];
    the timestamp is a [datetime], of which nothing is read. *)
Definition reason_with_uncertainty (query : string)
    (constructed_knowledge : option (list Pipeline.fact)) (timestamp : Z)
    : result (string * float * list Attribution.detailed_step) :=
  let steps := _generate_reasoning_steps query constructed_knowledge in
  detailed_steps ← mapM run_step steps;
  let reasoning_steps := Attribution.result_text <$> detailed_steps in
  let uncertainties := Attribution.uncertainty <$> detailed_steps in
  let overall_uncertainty :=
    Pipeline.propagate_uncertainty reasoning_steps uncertainties in
  let reasoning := _combine_reasoning_steps reasoning_steps in
  mret (reasoning, overall_uncertainty, detailed_steps).
End Run.

(** The three lines every run of the default plan reports. *)
Definition default_reasoning : string :=
  "Executed step: interpret_query" +:+ newline
  +:+ "Executed step: analyze_knowledge" +:+ newline
  +:+ "Executed step: synthesize_answer".

Definition default_types : list string :=
  ["interpret_query"; "analyze_knowledge"; "synthesize_answer"].

(** The uncertainty of the [analyze_knowledge] step of the default plan. *)
Definition knowledge_uncertainty (np_mean : list float -> float)
    (constructed_knowledge : option (list Pipeline.fact)) : float :=
  match constructed_knowledge with
  | Some (fact :: facts) =>
      np_mean (Pipeline.fact_uncertainty <$> fact :: facts)
  | Some [] | None => 0.5
  end.

End Trace.

(** ** Suggestions *)

Module Suggest.
Local Open Scope float_scope.

(** [sorted(items, key=lambda x: x[1], reverse=True)] on the items of a
    dictionary, which come in insertion order. *)
Fixpoint insert_desc (x : string * float) (l : list (string * float))
    : list (string * float) :=
  match l with
  | [] => [x]
  | y :: l' => if snd x <? snd y then y :: insert_desc x l' else x :: l
  end.

Definition sorted_desc (items : list (string * float))
    : list (string * float) :=
  foldr insert_desc [] items.

(** The chain of comparisons on [source]. *)
Definition suggestion (source : string) : option string :=
  if String.eqb source "interpret_query" then
    Some "Clarify the query to reduce ambiguity."
  else if String.eqb source "analyze_knowledge" then
    Some "Gather more relevant information to improve knowledge base."
  else if String.eqb source "synthesize_answer" then
    Some "Refine the answer synthesis process for better accuracy."
  else None.

(** [suggest_uncertainty_reduction(self, uncertainty_sources)], on the items
    of the dictionary. *)
Definition suggest_uncertainty_reduction
    (uncertainty_sources : list (string * float)) : list string :=
  omap (fun item => suggestion (fst item)) (sorted_desc uncertainty_sources).

End Suggest.

(** ** The order a sort leaves *)

Module Order.

(** Each score is at least the next one. *)
Fixpoint descending (scores : list float) : Prop :=
  match scores with
  | a :: (b :: _) as rest => (b <=? a)%float = true /\ descending rest
  | _ => True
  end.


End Order.

Module BeamOrder.


(** The candidates of the first pass: every initial entity extended by each
    of its neighbours, in the order the loops generate them. *)
Definition candidates (neighbors : Beam.entity -> list Beam.entity)
    (score : list Beam.entity -> float) (initial_entities : list Beam.entity)
    : list (list Beam.entity * float) :=
  concat ((fun e => (fun n => ([e; n], score [e; n])) <$> neighbors e)
            <$> initial_entities).

End BeamOrder.

(** ** Data for the examples *)

Module Examples.
Local Open Scope float_scope.

(** The placeholder result, with and without its confidence, and one whose
    confidence is [None]. *)
Definition confident_result : gmap string pyval :=
  <["confidence" := PFloat 0.8]>
    {["conclusion" := PStr "This is a placeholder conclusion."]}.

Definition bare_result : gmap string pyval :=
  {["conclusion" := PStr "This is a placeholder conclusion."]}.

Definition flagged_result : gmap string pyval :=
  {["conclusion" :=
      PStr "This is a placeholder conclusion. (High uncertainty)"]}.

Definition unset_confidence : gmap string pyval :=
  {["confidence" := PNone]}.

End Examples.

(** ** The outcome of rounding *)

Module Rounding.

(** The exact value [M * 2^E] is rounded to [mr * 2^er]: the mantissa fits
    the format, the value lies within half a unit of the result, on the even
    side in case of a tie, and a result in the normal range is not below the
    midpoint that precedes its binade. *)
Definition rounds_to (M E mr er : Z) : Prop :=
  (E <= er /\ -1074 <= er /\ 0 <= mr < 2 ^ 53
   /\ (-1074 < er -> 2 ^ 52 <= mr)
   /\ (2 * mr - 1) * 2 ^ (er - E) <= 2 * M <= (2 * mr + 1) * 2 ^ (er - E)
   /\ (2 * M = (2 * mr - 1) * 2 ^ (er - E)
       \/ 2 * M = (2 * mr + 1) * 2 ^ (er - E) -> Z.even mr = true)
   /\ (-1074 < er -> (2 ^ 54 - 1) * 2 ^ (er - E) <= 4 * M))%Z.

(** The float of sign [s], mantissa [mr] and exponent [er]. *)
Definition outcome (s : bool) (mr er : Z) : spec_float :=
  match mr with
  | Zpos m => if (er <=? 971)%Z then S754_finite s m er else S754_infinity s
  | _ => S754_zero s
  end.

End Rounding.

(** * Properties *)

(** ** Rounding to nearest in binary64 *)

Module Binary64Facts.
Import Binary64.
Local Open Scope Z_scope.

Lemma digits2_pos_bounds (p : positive) :
  2 ^ (Zpos (digits2_pos p) - 1) <= Zpos p < 2 ^ Zpos (digits2_pos p).
Proof.
  induction p as [p IH | p IH |]; cbn [digits2_pos].
  - rewrite Pos2Z.inj_succ.
    replace (Z.succ (Zpos (digits2_pos p)) - 1) with (Z.succ (Zpos (digits2_pos p) - 1)) by lia.
    rewrite !Z.pow_succ_r by lia. lia.
  - rewrite Pos2Z.inj_succ.
    replace (Z.succ (Zpos (digits2_pos p)) - 1) with (Z.succ (Zpos (digits2_pos p) - 1)) by lia.
    rewrite !Z.pow_succ_r by lia. lia.
  - cbn. lia.
Qed.

Lemma iter_pos_nat {A : Type} (f : A -> A) (p : positive) (x : A) :
  SpecFloat.iter_pos f p x = Nat.iter (Pos.to_nat p) f x.
Proof.
  revert x. induction p as [p IH | p IH |]; intros x; cbn [SpecFloat.iter_pos].
  - rewrite !IH, Pos2Nat.inj_xI, <- Nat.iter_add, <- Nat.iter_succ_r.
    f_equal. lia.
  - rewrite !IH, Pos2Nat.inj_xO, <- Nat.iter_add. f_equal. lia.
  - reflexivity.
Qed.

Lemma shifted_0 (M : Z) : shifted M 0 (Build_shr_record M false false).
Proof.
  split; cbn [shr_m shr_r shr_s].
  - now rewrite Z.pow_0_r, Z.div_1_r.
  - now rewrite Z.pow_0_r, Z.mod_1_r.
Qed.

Lemma shifted_step (M k : Z) (mrs : shr_record) :
  0 <= M -> 0 <= k -> shifted M k mrs -> shifted M (k + 1) (shr_1 mrs).
Proof.
  intros HM Hk [Hm Hloc].
  assert (HP : 0 < 2 ^ k) by (apply Z.pow_pos_nonneg; lia).
  pose proof (Z.div_mod M (2 ^ k) ltac:(lia)) as Hdm.
  pose proof (Z.mod_pos_bound M (2 ^ k) HP) as Hrem.
  assert (Hm0 : 0 <= M / 2 ^ k) by (apply Z.div_pos; lia).
  unfold shifted. rewrite Z.pow_add_r, Z.pow_1_r by lia.
  set (P := 2 ^ k) in *. set (q := M / P) in *. set (r := M mod P) in *.
  assert (Hdiv : forall q' b, q = 2 * q' + b -> 0 <= b < 2 ->
            M / (P * 2) = q' /\ M mod (P * 2) = b * P + r).
  { intros q' b Hq Hb. split.
    - symmetry. apply (Z.div_unique_pos M (P * 2) q' (b * P + r)); nia.
    - symmetry. apply (Z.mod_unique_pos M (P * 2) q' (b * P + r)); nia. }
  destruct mrs as [m r0 s0]; cbn [shr_m shr_r shr_s] in *. subst m.
  unfold shr_1.
  destruct q as [|[p|p|]|p] eqn:Eq; try lia.
  - destruct (Hdiv 0 0 ltac:(lia) ltac:(lia)) as [-> ->].
    cbn [shr_m shr_r shr_s]. split; [reflexivity|].
    destruct r0, s0; cbn [orb]; lia.
  - destruct (Hdiv (Zpos p) 1 ltac:(lia) ltac:(lia)) as [-> ->].
    cbn [shr_m shr_r shr_s]. split; [reflexivity|].
    destruct r0, s0; cbn [orb]; lia.
  - destruct (Hdiv (Zpos p) 0 ltac:(lia) ltac:(lia)) as [-> ->].
    cbn [shr_m shr_r shr_s]. split; [reflexivity|].
    destruct r0, s0; cbn [orb]; lia.
  - destruct (Hdiv 0 1 ltac:(lia) ltac:(lia)) as [-> ->].
    cbn [shr_m shr_r shr_s]. split; [reflexivity|].
    destruct r0, s0; cbn [orb]; lia.
Qed.

Lemma shifted_iter (M : Z) (n : nat) :
  0 <= M ->
  shifted M (Z.of_nat n) (Nat.iter n shr_1 (Build_shr_record M false false)).
Proof.
  intros HM. induction n as [|n IH].
  - apply shifted_0.
  - rewrite Nat2Z.inj_succ, <- Z.add_1_r. cbn [Nat.iter nat_rect].
    apply shifted_step; [lia | lia | exact IH].
Qed.

Lemma shr_shifted (M e n : Z) :
  0 <= M -> 0 <= n ->
  exists mrs, shr (Build_shr_record M false false) e n = (mrs, e + n)
              /\ shifted M n mrs.
Proof.
  intros HM Hn. unfold shr. destruct n as [|p|p]; try lia.
  - eexists; split; [rewrite Z.add_0_r; reflexivity | apply shifted_0].
  - eexists; split; [reflexivity|].
    rewrite iter_pos_nat, <- (positive_nat_Z p).
    apply shifted_iter, HM.
Qed.

(** Rounding the shifted mantissa to nearest moves it by at most half a
    unit. *)
Lemma round_shifted (M k : Z) (mrs : shr_record) :
  0 <= M -> 0 <= k -> shifted M k mrs ->
  let m1 := round_nearest_even (shr_m mrs) (loc_of_shr_record mrs) in
  M / 2 ^ k <= m1 <= M / 2 ^ k + 1 /\
  (2 * m1 - 1) * 2 ^ k <= 2 * M.
Proof.
  intros HM Hk [Hm Hloc].
  assert (HP : 0 < 2 ^ k) by (apply Z.pow_pos_nonneg; lia).
  pose proof (Z.div_mod M (2 ^ k) ltac:(lia)) as Hdm.
  pose proof (Z.mod_pos_bound M (2 ^ k) HP) as Hrem.
  destruct mrs as [m r s]; cbn [shr_m shr_r shr_s] in *. subst m.
  set (P := 2 ^ k) in *. set (q := M / P) in *. set (rm := M mod P) in *.
  cbn zeta.
  destruct r, s; cbn [loc_of_shr_record round_nearest_even].
  - split; nia.
  - destruct (Z.even q); split; nia.
  - split; nia.
  - split; nia.
Qed.

Lemma fexp_eq (x : Z) : fexp prec emax x = Z.max (x - 53) (-1074).
Proof. reflexivity. Qed.

Lemma pow2_pos (a : Z) : 0 <= a -> 0 < 2 ^ a.
Proof. intros; apply Z.pow_pos_nonneg; lia. Qed.

Lemma pow2_le (a b : Z) : 0 <= a <= b -> 2 ^ a <= 2 ^ b.
Proof. intros; apply Z.pow_le_mono_r; lia. Qed.

Lemma pow2_lt_inv (a b : Z) : 0 <= a -> 0 <= b -> 2 ^ a < 2 ^ b -> a < b.
Proof. intros Ha Hb H. apply (Z.pow_lt_mono_r_iff 2); lia. Qed.

Lemma bounded_canonical (m : positive) (e : Z) :
  bounded prec emax m e = true -> canonical m e.
Proof.
  unfold bounded, canonical_mantissa. rewrite fexp_eq.
  intros [H1 H2]%andb_true_iff.
  apply Z.eqb_eq in H1. apply Z.leb_le in H2.
  change (emax - prec) with 971 in H2.
  pose proof (digits2_pos_bounds m) as [Hlo Hhi].
  set (d := Zpos (digits2_pos m)) in *.
  assert (Hd : 1 <= d <= 53) by lia.
  repeat split; try lia.
  - eapply Z.lt_le_trans; [exact Hhi | apply pow2_le; lia].
  - intros He. assert (d = 53) by lia. subst d.
    replace (2 ^ 52) with (2 ^ (Zpos (digits2_pos m) - 1)); [exact Hlo|].
    now replace (Zpos (digits2_pos m)) with 53.
Qed.

(** The second normalisation of [binary_round_aux]: the mantissa can only
    shrink by whole bits while the exponent grows by as many. *)
Lemma renormalise (m1 e1 : Z) :
  0 <= m1 ->
  exists mrs e2,
    shr_fexp prec emax m1 e1 loc_Exact = (mrs, e2) /\
    e2 = Z.max e1 (fexp prec emax (Zdigits2 m1 + e1)) /\
    shr_m mrs = m1 / 2 ^ (e2 - e1).
Proof.
  intros Hm. unfold shr_fexp. cbn [shr_record_of_loc].
  set (n := fexp prec emax (Zdigits2 m1 + e1) - e1).
  destruct (Z.le_gt_cases 0 n) as [Hn | Hn].
  - destruct (shr_shifted m1 e1 n Hm Hn) as (mrs & Hshr & Hsh & _).
    exists mrs, (e1 + n). split; [exact Hshr|]. split; [lia|].
    rewrite Hsh. f_equal. f_equal. lia.
  - exists (Build_shr_record m1 false false), e1.
    split; [|split].
    + unfold shr. destruct n; try lia; reflexivity.
    + lia.
    + cbn [shr_m]. now rewrite Z.sub_diag, Z.pow_0_r, Z.div_1_r.
Qed.

Lemma Zdigits2_le_54 (m : Z) : 0 <= m <= 2 ^ 53 -> Zdigits2 m <= 54.
Proof.
  intros Hm. destruct m as [|p|p]; cbn [Zdigits2]; try lia.
  pose proof (digits2_pos_bounds p) as [Hlo _].
  destruct (Z.le_gt_cases (Zpos (digits2_pos p)) 54) as [|Hgt]; [assumption|].
  assert (2 ^ 54 <= 2 ^ (Zpos (digits2_pos p) - 1)) by (apply pow2_le; lia).
  assert (2 ^ 53 < 2 ^ 54) by (apply Z.pow_lt_mono_r; lia).
  lia.
Qed.

Lemma Zdigits2_le_53 (m : Z) : 0 <= m < 2 ^ 53 -> Zdigits2 m <= 53.
Proof.
  intros Hm. destruct m as [|p|p]; cbn [Zdigits2]; try lia.
  pose proof (digits2_pos_bounds p) as [Hlo _].
  destruct (Z.le_gt_cases (Zpos (digits2_pos p)) 53) as [|Hgt]; [assumption|].
  assert (2 ^ 53 <= 2 ^ (Zpos (digits2_pos p) - 1)) by (apply pow2_le; lia).
  lia.
Qed.

(** Rounding to nearest never jumps over a representable number: when the
    exact value [M * 2^E] lies below the midpoint that follows the float
    [mf * 2^ef], the rounded result is at most that float. Values are
    compared after scaling by a power of two that makes them integers. *)
Lemma round_aux_le (M : positive) (E S : Z) (mf : positive) (ef : Z) :
  0 <= E + S -> 1074 <= S ->
  E <= fexp prec emax (Zpos (digits2_pos M) + E) ->
  canonical mf ef ->
  2 * Zpos M * 2 ^ (E + S) < (2 * Zpos mf + 1) * 2 ^ (ef + S) ->
  match binary_round_aux prec emax false (Zpos M) E loc_Exact with
  | S754_zero false => True
  | S754_finite false m e =>
      -1074 <= e /\ Zpos m * 2 ^ (e + 1074) <= Zpos mf * 2 ^ (ef + 1074)
  | _ => False
  end.
Proof.
  intros HES HS Hal (Hef & Hmf & Hnorm) Hlt.
  unfold binary_round_aux.
  pose proof (digits2_pos_bounds M) as [HMlo HMhi].
  set (d := Zpos (digits2_pos M)) in *.
  assert (Hd : 1 <= d) by (unfold d; lia).
  rewrite fexp_eq in *.
  set (e1 := Z.max (d + E - 53) (-1074)) in *.
  assert (Hn : 0 <= e1 - E) by lia.
  destruct (shr_shifted (Zpos M) E (e1 - E) ltac:(lia) Hn)
    as (mrs & Hshr & Hsh).
  assert (Hfirst : shr_fexp prec emax (Zpos M) E loc_Exact = (mrs, e1)).
  { unfold shr_fexp. cbn [Zdigits2 shr_record_of_loc].
    rewrite fexp_eq. fold d e1. rewrite Hshr. f_equal. lia. }
  rewrite Hfirst. clear Hfirst Hshr.
  pose proof (round_shifted (Zpos M) (e1 - E) mrs ltac:(lia) Hn Hsh) as [[Hm1lo Hm1hi] Hm1].
  cbv zeta in Hm1lo, Hm1hi, Hm1.
  set (m1 := round_nearest_even (shr_m mrs) (loc_of_shr_record mrs)) in *.
  set (n := e1 - E) in *.
  assert (HPn : 0 < 2 ^ n) by (apply pow2_pos; lia).
  assert (Hq0 : 0 <= Zpos M / 2 ^ n) by (apply Z.div_pos; lia).
  assert (Hq : Zpos M / 2 ^ n < 2 ^ 53).
  { apply Z.div_lt_upper_bound; [lia|].
    rewrite <- Z.pow_add_r by lia.
    eapply Z.lt_le_trans; [exact HMhi | apply pow2_le; lia]. }
  assert (Hm1_0 : 0 <= m1 <= 2 ^ 53) by lia.
  destruct (renormalise m1 e1 ltac:(lia)) as (mrs2 & e2 & -> & He2 & Hm2).
  rewrite fexp_eq in He2.
  pose proof (Zdigits2_le_54 m1 Hm1_0) as Hd1.
  assert (Hd1' : 0 <= Zdigits2 m1) by (destruct m1; cbn; lia).
  assert (He12 : e1 <= e2 <= e1 + 1) by lia.
  assert (HPe : 0 < 2 ^ (e2 - e1)) by (apply pow2_pos; lia).
  assert (Hfloor : shr_m mrs2 * 2 ^ (e2 - e1) <= m1).
  { rewrite Hm2, Z.mul_comm. apply Z.mul_div_le; lia. }
  assert (Hm2_0 : 0 <= shr_m mrs2) by (rewrite Hm2; apply Z.div_pos; lia).
  (* the value reached before renormalisation is within the bound *)
  assert (Hval : m1 * 2 ^ (e1 + 1074) <= Zpos mf * 2 ^ (ef + 1074)
                 /\ e2 <= 971).
  { assert (HA : 0 < 2 ^ (E + S)) by (apply pow2_pos; lia).
    destruct (Z.lt_trichotomy e1 ef) as [Hlt1 | [Heq1 | Hgt1]].
    - (* the result lives in a lower binade than the bound *)
      split; [|lia].
      assert (2 ^ 52 <= Zpos mf) by (apply Hnorm; lia).
      assert (H2 : 2 * 2 ^ (e1 + 1074) <= 2 ^ (ef + 1074)).
      { rewrite <- (Z.pow_succ_r 2) by lia. apply pow2_le; lia. }
      assert (0 < 2 ^ (e1 + 1074)) by (apply pow2_pos; lia).
      change (2 ^ 53) with (2 * 2 ^ 52) in Hm1_0. nia.
    - (* same exponent: compare the mantissas *)
      subst ef.
      assert (Hsplit : 2 ^ (e1 + S) = 2 ^ n * 2 ^ (E + S)).
      { rewrite <- Z.pow_add_r by lia. f_equal. lia. }
      rewrite Hsplit in Hlt.
      assert (Hm1mf : m1 <= Zpos mf) by nia.
      split.
      + apply Z.mul_le_mono_nonneg_r; [apply Z.lt_le_incl, pow2_pos; lia | exact Hm1mf].
      + pose proof (Zdigits2_le_53 m1 ltac:(lia)). lia.
    - (* a higher exponent contradicts the bound on the exact value *)
      exfalso.
      assert (He1 : e1 = d + E - 53) by lia.
      assert (HMn : 2 ^ (n + 52) <= Zpos M).
      { replace (n + 52) with (d - 1) by lia. exact HMlo. }
      rewrite Z.pow_add_r in HMn by lia.
      assert (Hsplit : 2 ^ (e1 + S) = 2 ^ n * 2 ^ (E + S)).
      { rewrite <- Z.pow_add_r by lia. f_equal. lia. }
      assert (H2 : 2 * 2 ^ (ef + S) <= 2 ^ (e1 + S)).
      { rewrite <- (Z.pow_succ_r 2) by lia. apply pow2_le; lia. }
      assert (0 < 2 ^ (ef + S)) by (apply pow2_pos; lia).
      change (2 ^ 53) with (2 * 2 ^ 52) in Hmf.
      nia. }
  destruct Hval as [Hval He971].
  assert (Hfin : shr_m mrs2 * 2 ^ (e2 + 1074) <= Zpos mf * 2 ^ (ef + 1074)).
  { replace (e2 + 1074) with ((e2 - e1) + (e1 + 1074)) by lia.
    rewrite Z.pow_add_r by lia.
    assert (0 < 2 ^ (e1 + 1074)) by (apply pow2_pos; lia).
    nia. }
  destruct (shr_m mrs2) as [|p2|p2]; [exact I | | lia].
  change (emax - prec) with 971.
  destruct (Z.leb_spec e2 971); [|lia].
  split; [lia | exact Hfin].
Qed.

Lemma sf_val_nonneg (x : spec_float) : 0 <= sf_val x.
Proof.
  destruct x as [| | |[] m e]; cbn [sf_val];
    first [lia | apply Z.mul_nonneg_nonneg; [lia | apply Z.pow_nonneg; lia]].
Qed.

Lemma valid_canonical (s : bool) (m : positive) (e : Z) :
  valid_binary (S754_finite s m e) = true -> canonical m e.
Proof. apply bounded_canonical. Qed.

Lemma iter_xO (m d : positive) :
  Zpos (Pos.iter xO m d) = Zpos m * 2 ^ Zpos d
  /\ Zpos (digits2_pos (Pos.iter xO m d)) = Zpos (digits2_pos m) + Zpos d.
Proof.
  induction d as [|d IH] using Pos.peano_ind.
  - cbn [Pos.iter digits2_pos]. rewrite Pos2Z.inj_succ. split; lia.
  - rewrite Pos.iter_succ. cbn [digits2_pos].
    rewrite !Pos2Z.inj_succ, Z.pow_succ_r by lia.
    destruct IH as [IH1 IH2]. rewrite Pos2Z.inj_xO, IH1, IH2. split; lia.
Qed.

Lemma shl_align_spec (m : positive) (e e' : Z) :
  exists m', shl_align m e e' = (m', Z.min e e')
    /\ Zpos m' = Zpos m * 2 ^ (e - Z.min e e')
    /\ Zpos (digits2_pos m') + Z.min e e' = Zpos (digits2_pos m) + e.
Proof.
  unfold shl_align. destruct (e' - e) as [|d|d] eqn:Hd.
  - exists m. replace (Z.min e e') with e by lia.
    rewrite Z.sub_diag, Z.pow_0_r. repeat split; lia.
  - exists m. replace (Z.min e e') with e by lia.
    rewrite Z.sub_diag, Z.pow_0_r. repeat split; lia.
  - exists (Pos.iter xO m d). replace (Z.min e e') with e' by lia.
    destruct (iter_xO m d) as [H1 H2]. rewrite H1, H2.
    replace (e - e') with (Zpos d) by lia. repeat split; lia.
Qed.

(** The same bound for [binary_round], which aligns the mantissa first. *)
Lemma binary_round_le (M : positive) (E : Z) (mf : positive) (ef : Z) :
  -1074 <= E ->
  canonical mf ef ->
  2 * Zpos M * 2 ^ (E + 1074) < (2 * Zpos mf + 1) * 2 ^ (ef + 1074) ->
  match binary_round prec emax false M E with
  | S754_zero false => True
  | S754_finite false m e =>
      -1074 <= e /\ Zpos m * 2 ^ (e + 1074) <= Zpos mf * 2 ^ (ef + 1074)
  | _ => False
  end.
Proof.
  intros HE Hf Hlt. unfold binary_round.
  destruct (shl_align_spec M E (fexp prec emax (Zpos (digits2_pos M) + E)))
    as (mz & -> & Hmz & Hdz).
  rewrite fexp_eq in *.
  set (ez := Z.min E _) in *.
  apply (round_aux_le mz ez 1074 mf ef); try lia.
  - rewrite fexp_eq, Hdz. unfold ez. lia.
  - exact Hf.
  - rewrite Hmz.
    replace (2 * (Zpos M * 2 ^ (E - ez)) * 2 ^ (ez + 1074))
      with (2 * Zpos M * (2 ^ (E - ez) * 2 ^ (ez + 1074))) by ring.
    rewrite <- Z.pow_add_r by (unfold ez; lia).
    now replace (E - ez + (ez + 1074)) with (E + 1074) by lia.
Qed.

Lemma mul_aligned (mx my : positive) (ex ey : Z) :
  canonical mx ex -> canonical my ey ->
  ex + ey <= fexp prec emax (Zpos (digits2_pos (mx * my)) + (ex + ey)).
Proof.
  intros (Hex & Hmx & Hnx) (Hey & Hmy & Hny). rewrite fexp_eq.
  pose proof (digits2_pos_bounds (mx * my)) as [_ Hhi].
  set (d := Zpos (digits2_pos (mx * my))) in *.
  assert (Hd : 1 <= d) by (unfold d; lia).
  rewrite Pos2Z.inj_mul in Hhi.
  destruct (Z.eq_dec ex (-1074)) as [Hx | Hx];
    [destruct (Z.eq_dec ey (-1074)) as [Hy | Hy]; [lia|] |].
  - assert (2 ^ 52 <= Zpos my) by (apply Hny; lia).
    assert (2 ^ 52 < 2 ^ d) by nia.
    apply pow2_lt_inv in H0; lia.
  - assert (2 ^ 52 <= Zpos mx) by (apply Hnx; lia).
    assert (2 ^ 52 < 2 ^ d) by nia.
    apply pow2_lt_inv in H0; lia.
Qed.

(** Multiplication of two non-negative floats stays below any float that
    bounds the exact product. *)
Lemma SFmul_le (x y : spec_float) (mf : positive) (ef : Z) :
  valid_binary x = true -> valid_binary y = true ->
  sf_nonneg x -> sf_nonneg y -> canonical mf ef ->
  sf_val x * sf_val y <= Zpos mf * 2 ^ (ef + 1074) * 2 ^ 1074 ->
  sf_nonneg (SF64mul x y)
  /\ sf_val (SF64mul x y) <= Zpos mf * 2 ^ (ef + 1074).
Proof.
  intros Hvx Hvy Hx Hy Hf Hle.
  assert (HF : 0 < Zpos mf * 2 ^ (ef + 1074)).
  { destruct Hf as (? & _). pose proof (pow2_pos (ef + 1074)). nia. }
  destruct x as [sx | | | [] mx ex], y as [sy | | | [] my ey];
    try contradiction; cbn [SF64mul SFmul sf_val sf_nonneg xorb];
    try (split; [exact I | lia]).
  apply valid_canonical in Hvx, Hvy.
  pose proof (mul_aligned mx my ex ey Hvx Hvy) as Hal.
  cbn [sf_val] in Hle.
  assert (Hlt : 2 * Zpos (mx * my) * 2 ^ (ex + ey + 2148)
                < (2 * Zpos mf + 1) * 2 ^ (ef + 2148)).
  { destruct Hvx as (? & _), Hvy as (? & _), Hf as (? & _).
    replace (ex + ey + 2148) with ((ex + 1074) + (ey + 1074)) by lia.
    replace (ef + 2148) with ((ef + 1074) + 1074) by lia.
    rewrite (Z.pow_add_r 2 (ex + 1074)), (Z.pow_add_r 2 (ef + 1074)) by lia.
    rewrite Pos2Z.inj_mul.
    assert (0 < 2 ^ (ef + 1074) * 2 ^ 1074)
      by (apply Z.mul_pos_pos; apply pow2_pos; lia).
    set (U := 2 ^ 1074) in *. set (F := 2 ^ (ef + 1074)) in *.
    set (A := 2 ^ (ex + 1074)) in *. set (B := 2 ^ (ey + 1074)) in *.
    replace (2 * (Zpos mx * Zpos my) * (A * B))
      with (2 * (Zpos mx * A * (Zpos my * B))) by ring.
    lia. }
  pose proof (round_aux_le (mx * my) (ex + ey) 2148 mf ef) as Hr.
  destruct Hvx as (? & _), Hvy as (? & _).
  specialize (Hr ltac:(lia) ltac:(lia) Hal Hf Hlt).
  destruct (binary_round_aux prec emax false (Zpos (mx * my)) (ex + ey) loc_Exact)
    as [[] | | | [] m e]; try contradiction; cbn [sf_val sf_nonneg];
    split; try exact I; lia.
Qed.

(** Addition of two non-negative floats. *)
Lemma SFadd_le (x y : spec_float) (mf : positive) (ef : Z) :
  valid_binary x = true -> valid_binary y = true ->
  sf_nonneg x -> sf_nonneg y -> canonical mf ef ->
  sf_val x <= Zpos mf * 2 ^ (ef + 1074) ->
  sf_val y <= Zpos mf * 2 ^ (ef + 1074) ->
  2 * (sf_val x + sf_val y) < (2 * Zpos mf + 1) * 2 ^ (ef + 1074) ->
  sf_nonneg (SF64add x y)
  /\ sf_val (SF64add x y) <= Zpos mf * 2 ^ (ef + 1074).
Proof.
  intros Hvx Hvy Hx Hy Hf Hlx Hly Hlt.
  assert (HF : 0 < Zpos mf * 2 ^ (ef + 1074)).
  { destruct Hf as (? & _). pose proof (pow2_pos (ef + 1074)). nia. }
  destruct x as [sx | | | [] mx ex], y as [sy | | | [] my ey];
    try contradiction; cbn [SF64add SFadd];
    try (split; [exact I | assumption]).
  - destruct sx, sy; cbn [sf_val sf_nonneg]; split; try exact I; lia.
  - apply valid_canonical in Hvx, Hvy.
    cbn [sf_val] in Hlt.
    destruct (shl_align_spec mx ex (Z.min ex ey)) as (mx' & -> & Hmx' & _).
    destruct (shl_align_spec my ey (Z.min ex ey)) as (my' & -> & Hmy' & _).
    cbn [fst cond_Zopp].
    change (Zpos mx' + Zpos my') with (Zpos (mx' + my')).
    cbn [binary_normalize].
    set (ez := Z.min ex ey) in *.
    replace (Z.min ex ez) with ez in * by (unfold ez; lia).
    replace (Z.min ey ez) with ez in * by (unfold ez; lia).
    destruct Hvx as (Hex & _), Hvy as (Hey & _).
    pose proof (binary_round_le (mx' + my') ez mf ef) as Hr.
    assert (Hex' : 2 ^ (ex + 1074) = 2 ^ (ex - ez) * 2 ^ (ez + 1074)).
    { rewrite <- Z.pow_add_r by (unfold ez; lia). f_equal. lia. }
    assert (Hey' : 2 ^ (ey + 1074) = 2 ^ (ey - ez) * 2 ^ (ez + 1074)).
    { rewrite <- Z.pow_add_r by (unfold ez; lia). f_equal. lia. }
    assert (Hlt' : 2 * Zpos (mx' + my') * 2 ^ (ez + 1074)
                   < (2 * Zpos mf + 1) * 2 ^ (ef + 1074)).
    { rewrite Pos2Z.inj_add, Hmx', Hmy'. rewrite Hex', Hey' in Hlt. nia. }
    specialize (Hr ltac:(unfold ez; lia) Hf Hlt').
    destruct (binary_round prec emax false (mx' + my') ez)
      as [[] | | | [] m e]; try contradiction; cbn [sf_val sf_nonneg];
      split; try exact I; lia.
Qed.

(** Subtracting a smaller non-negative float from a positive one. *)
Lemma SFsub_le (mx : positive) (ex : Z) (y : spec_float) :
  canonical mx ex -> valid_binary y = true -> sf_nonneg y ->
  sf_val y <= Zpos mx * 2 ^ (ex + 1074) ->
  sf_nonneg (SF64sub (S754_finite false mx ex) y)
  /\ sf_val (SF64sub (S754_finite false mx ex) y)
     <= Zpos mx * 2 ^ (ex + 1074).
Proof.
  intros Hx Hvy Hy Hle.
  destruct y as [sy | | | [] my ey]; try contradiction; cbn [SF64sub SFsub].
  - cbn [sf_val sf_nonneg]. split; [exact I | lia].
  - apply valid_canonical in Hvy. cbn [sf_val] in Hle.
    destruct (shl_align_spec mx ex (Z.min ex ey)) as (mx' & -> & Hmx' & _).
    destruct (shl_align_spec my ey (Z.min ex ey)) as (my' & -> & Hmy' & _).
    cbn [fst cond_Zopp].
    set (ez := Z.min ex ey) in *.
    replace (Z.min ex ez) with ez in * by (unfold ez; lia).
    replace (Z.min ey ez) with ez in * by (unfold ez; lia).
    pose proof Hx as (Hex & _). destruct Hvy as (Hey & _).
    assert (Hex' : 2 ^ (ex + 1074) = 2 ^ (ex - ez) * 2 ^ (ez + 1074)).
    { rewrite <- Z.pow_add_r by (unfold ez; lia). f_equal. lia. }
    assert (Hey' : 2 ^ (ey + 1074) = 2 ^ (ey - ez) * 2 ^ (ez + 1074)).
    { rewrite <- Z.pow_add_r by (unfold ez; lia). f_equal. lia. }
    assert (HP : 0 < 2 ^ (ez + 1074)) by (apply pow2_pos; unfold ez; lia).
    rewrite Hex', Hey' in Hle.
    assert (Hge : Zpos my' <= Zpos mx') by nia.
    destruct (Zpos mx' - Zpos my') as [|p|p] eqn:Hdiff; try lia;
      cbn [binary_normalize].
    + cbn [sf_val sf_nonneg]. split; [exact I | nia].
    + pose proof (binary_round_le p ez mx ex) as Hr.
      assert (Hlt : 2 * Zpos p * 2 ^ (ez + 1074)
                    < (2 * Zpos mx + 1) * 2 ^ (ex + 1074)).
      { rewrite Hex'. rewrite <- Hdiff, Hmx'.
        assert (0 < 2 ^ (ex - ez)) by (apply pow2_pos; unfold ez; lia).
        nia. }
      specialize (Hr ltac:(unfold ez; lia) Hx Hlt).
      destruct (binary_round prec emax false p ez)
        as [[] | | | [] m e]; try contradiction; cbn [sf_val sf_nonneg];
        split; try exact I; lia.
Qed.

Lemma Prim2SF_one : Prim2SF 1 = S754_finite false one_m (-52).
Proof. reflexivity. Qed.

Lemma Prim2SF_zero : Prim2SF 0 = S754_zero false.
Proof. reflexivity. Qed.

Lemma one_canonical : canonical one_m (-52).
Proof. apply (valid_canonical false). reflexivity. Qed.

Lemma one_val : Zpos one_m * 2 ^ (-52 + 1074) = 2 ^ 1074.
Proof.
  change (Zpos one_m) with (2 ^ 52). rewrite <- Z.pow_add_r by lia.
  reflexivity.
Qed.

(** Comparison of positive finite floats, by exponent and then mantissa. *)
Lemma SFleb_pos (m1 m2 : positive) (e1 e2 : Z) :
  SFleb (S754_finite false m1 e1) (S754_finite false m2 e2) = true <->
  e1 < e2 \/ (e1 = e2 /\ Zpos m1 <= Zpos m2).
Proof.
  unfold SFleb, SFcompare.
  pose proof (Pos.compare_spec m1 m2) as Hc. unfold Pos.compare in Hc.
  destruct (Z.compare_spec e1 e2) as [He | He | He].
  - destruct Hc as [Hm | Hm | Hm]; split; intros H;
      try discriminate; try reflexivity; lia.
  - split; [intros _; lia | reflexivity].
  - split; [discriminate | lia].
Qed.

(** A canonical positive float is at most one exactly when its scaled value
    is. *)
Lemma canonical_le_one (m : positive) (e : Z) :
  canonical m e ->
  (e < -52 \/ (e = -52 /\ Zpos m <= Zpos one_m)) <->
  Zpos m * 2 ^ (e + 1074) <= 2 ^ 1074.
Proof.
  intros (He & Hm & Hnorm).
  assert (HU : 2 ^ 1074 = 2 ^ 53 * 2 ^ 1021)
    by (rewrite <- Z.pow_add_r by lia; reflexivity).
  assert (H53 : 2 ^ 53 = 2 * 2 ^ 52) by reflexivity.
  assert (Hone : Zpos one_m = 2 ^ 52) by reflexivity.
  assert (HP : 0 < 2 ^ (e + 1074)) by (apply pow2_pos; lia).
  assert (H1021 : 0 < 2 ^ 1021) by (apply pow2_pos; lia).
  assert (H52 : 0 < 2 ^ 52) by (apply pow2_pos; lia).
  rewrite HU, Hone. rewrite H53 in *.
  destruct (Z.lt_trichotomy e (-52)) as [Hlt | [-> | Hgt]].
  - assert (H2 : 2 ^ (e + 1074) <= 2 ^ 1021) by (apply pow2_le; lia).
    set (a := 2 ^ 52) in *. set (b := 2 ^ 1021) in *.
    set (c := 2 ^ (e + 1074)) in *.
    split; [intros _ | intros _; left; exact Hlt]. nia.
  - assert (H2 : 2 ^ (-52 + 1074) = 2 * 2 ^ 1021)
      by (rewrite <- (Z.pow_succ_r 2) by lia; reflexivity).
    rewrite H2.
    set (a := 2 ^ 52) in *. set (b := 2 ^ 1021) in *.
    split; [intros [? | [_ ?]]; [lia | nia] | intros ?; right; split; [reflexivity | nia]].
  - assert (Hm52 : 2 ^ 52 <= Zpos m) by (apply Hnorm; lia).
    assert (H2 : 2 * (2 * 2 ^ 1021) <= 2 ^ (e + 1074)).
    { rewrite <- !(Z.pow_succ_r 2) by lia. apply pow2_le; lia. }
    set (a := 2 ^ 52) in *. set (b := 2 ^ 1021) in *.
    set (c := 2 ^ (e + 1074)) in *.
    split; [intros [? | [? _]]; lia | intros ?; exfalso; nia].
Qed.

Lemma in_unit_interval_unit (x : float) :
  in_unit_interval x = true -> unit_float x.
Proof.
  unfold in_unit_interval, unit_float.
  rewrite andb_true_iff, !FloatAxioms.leb_spec, Prim2SF_one, Prim2SF_zero.
  pose proof (Prim2SF_valid x) as Hv.
  destruct (Prim2SF x) as [s | s | | s m e]; cbn [sf_nonneg sf_val].
  - intros _. split; [exact I|]. apply Z.pow_nonneg; lia.
  - intros [H0 H1]. destruct s; discriminate.
  - intros [H0 H1]. discriminate.
  - intros [H0 H1]. destruct s; [discriminate|]. split; [exact I|].
    apply valid_canonical in Hv.
    apply canonical_le_one; [exact Hv|]. apply SFleb_pos, H1.
Qed.

Lemma unit_in_unit_interval (x : float) :
  unit_float x -> in_unit_interval x = true.
Proof.
  unfold in_unit_interval, unit_float.
  rewrite andb_true_iff, !FloatAxioms.leb_spec, Prim2SF_one, Prim2SF_zero.
  pose proof (Prim2SF_valid x) as Hv.
  destruct (Prim2SF x) as [s | s | | [] m e]; cbn [sf_nonneg sf_val];
    intros [Hn Hle]; try contradiction.
  - split; reflexivity.
  - split; [reflexivity|].
    apply valid_canonical in Hv.
    apply SFleb_pos, canonical_le_one; assumption.
Qed.

Lemma mul_unit (x y : float) :
  unit_float x -> unit_float y -> unit_float (x * y).
Proof.
  intros [Hx Hxv] [Hy Hyv]. unfold unit_float. rewrite mul_spec.
  rewrite <- one_val.
  apply SFmul_le; auto using Prim2SF_valid, one_canonical.
  rewrite one_val.
  pose proof (sf_val_nonneg (Prim2SF x)). pose proof (sf_val_nonneg (Prim2SF y)).
  set (u := 2 ^ 1074) in *. nia.
Qed.

Lemma sub_unit (x : float) : unit_float x -> unit_float (1 - x).
Proof.
  intros [Hx Hxv]. unfold unit_float. rewrite sub_spec, Prim2SF_one.
  rewrite <- one_val.
  apply SFsub_le; auto using Prim2SF_valid, one_canonical.
Qed.

Lemma Prim2SF_c9 : Prim2SF (1 - 0.1) = S754_finite false c9_m (-53).
Proof. reflexivity. Qed.

Lemma Prim2SF_c1 : Prim2SF 0.1 = S754_finite false c1_m (-56).
Proof. reflexivity. Qed.

Lemma ema_unit (s p : float) :
  unit_float s -> unit_float p ->
  unit_float ((1 - 0.1) * s + 0.1 * p).
Proof.
  intros [Hs Hsv] [Hp Hpv]. unfold unit_float.
  assert (Hc9 : canonical c9_m (-53)) by (apply (valid_canonical false); reflexivity).
  assert (Hc1 : canonical c1_m (-56)) by (apply (valid_canonical false); reflexivity).
  pose proof (sf_val_nonneg (Prim2SF s)) as Hs0.
  pose proof (sf_val_nonneg (Prim2SF p)) as Hp0.
  assert (H1 : sf_nonneg (Prim2SF ((1 - 0.1) * s))
               /\ sf_val (Prim2SF ((1 - 0.1) * s))
                  <= Zpos c9_m * 2 ^ (-53 + 1074)).
  { rewrite mul_spec, Prim2SF_c9.
    apply SFmul_le;
      [reflexivity | apply Prim2SF_valid | exact I | exact Hs | exact Hc9 |].
    cbn [sf_val]. apply Z.mul_le_mono_nonneg_l; [|exact Hsv].
    apply Z.mul_nonneg_nonneg; [lia | apply Z.pow_nonneg; lia]. }
  assert (H2 : sf_nonneg (Prim2SF (0.1 * p))
               /\ sf_val (Prim2SF (0.1 * p))
                  <= Zpos c1_m * 2 ^ (-56 + 1074)).
  { rewrite mul_spec, Prim2SF_c1.
    apply SFmul_le;
      [reflexivity | apply Prim2SF_valid | exact I | exact Hp | exact Hc1 |].
    cbn [sf_val]. apply Z.mul_le_mono_nonneg_l; [|exact Hpv].
    apply Z.mul_nonneg_nonneg; [lia | apply Z.pow_nonneg; lia]. }
  destruct H1 as [H1n H1v], H2 as [H2n H2v].
  rewrite add_spec, <- one_val.
  assert (K9 : Zpos c9_m * 2 ^ (-53 + 1074) <= Zpos one_m * 2 ^ (-52 + 1074))
    by (vm_compute; discriminate).
  assert (K1 : Zpos c1_m * 2 ^ (-56 + 1074) <= Zpos one_m * 2 ^ (-52 + 1074))
    by (vm_compute; discriminate).
  assert (K : 2 * (Zpos c9_m * 2 ^ (-53 + 1074) + Zpos c1_m * 2 ^ (-56 + 1074))
              < (2 * Zpos one_m + 1) * 2 ^ (-52 + 1074))
    by (vm_compute; reflexivity).
  set (v9 := Zpos c9_m * 2 ^ (-53 + 1074)) in *.
  set (v1 := Zpos c1_m * 2 ^ (-56 + 1074)) in *.
  set (vone := 2 ^ (-52 + 1074)) in *.
  apply SFadd_le; auto using Prim2SF_valid, one_canonical; lia.
Qed.

(** Equality tests against the constants 0 and 1. *)
Lemma eqb_zero (x : float) : (x =? 0)%float = true -> zero_float x.
Proof.
  rewrite FloatAxioms.eqb_spec, Prim2SF_zero. unfold zero_float.
  destruct (Prim2SF x) as [s | s | | s m e]; intros H.
  - now exists s.
  - destruct s; discriminate.
  - discriminate.
  - destruct s; discriminate.
Qed.

Lemma eqb_one (x : float) : (x =? 1)%float = true -> x = 1%float.
Proof.
  rewrite FloatAxioms.eqb_spec, Prim2SF_one. intros H.
  apply Prim2SF_inj. rewrite Prim2SF_one.
  destruct (Prim2SF x) as [s | s | | s m e].
  - discriminate.
  - destruct s; discriminate.
  - discriminate.
  - destruct s; [discriminate|].
    unfold SFeqb, SFcompare in H.
    pose proof (Pos.compare_spec m one_m) as Hc. unfold Pos.compare in Hc.
    destruct (Z.compare_spec e (-52)) as [He | He | He]; try discriminate.
    destruct Hc as [Hm | Hm | Hm]; try discriminate.
    now subst.
Qed.

Lemma zero_float_unit (x : float) : zero_float x -> unit_float x.
Proof.
  intros [s Hs]. unfold unit_float. rewrite Hs. cbn [sf_nonneg sf_val].
  split; [exact I | apply Z.pow_nonneg; lia].
Qed.

(** [1 - x] is exactly [1] when [x] is a zero. *)
Lemma one_minus_zero (x : float) : zero_float x -> (1 - x)%float = 1%float.
Proof.
  intros [s Hs]. apply Prim2SF_inj.
  rewrite sub_spec, Hs, Prim2SF_one. reflexivity.
Qed.

(** A product with a zero factor is a zero, the other factor being finite
    and not negative. *)
Lemma mul_zero_l (x y : float) :
  zero_float x -> unit_float y -> zero_float (x * y).
Proof.
  intros [s Hs] [Hy _]. unfold zero_float. rewrite mul_spec, Hs.
  destruct (Prim2SF y) as [sy | sy | | [] my ey]; try contradiction;
    cbn [SF64mul SFmul]; eauto.
Qed.

Lemma mul_zero_r (x y : float) :
  unit_float x -> zero_float y -> zero_float (x * y).
Proof.
  intros [Hx _] [s Hs]. unfold zero_float. rewrite mul_spec, Hs.
  destruct (Prim2SF x) as [sx | sx | | [] mx ex]; try contradiction;
    cbn [SF64mul SFmul]; eauto.
Qed.

Lemma one_minus_one_zero : zero_float (1 - 1).
Proof. now exists false. Qed.

End Binary64Facts.

(** ** Causal edges *)

Section CausalFacts.
Import Causal.
Local Open Scope float_scope.
Implicit Types (edges : gmap (string * string) CausalEdge).

(** What one update does to every key of the table: an absent edge stays
    absent, the edge of the observed pair gets the moving average, and
    nothing else changes; the observation count is never written. *)
Lemma update_causal_strength_lookup edges source target p key :
  update_causal_strength edges source target p !! key =
  (fun edge =>
     if bool_decide (key = (source, target))
     then {| strength := 0.9 * strength edge + 0.1 * p;
             observation_count := observation_count edge |}
     else edge) <$> edges !! key.
Proof.
  unfold update_causal_strength.
  destruct (edges !! (source, target)) as [edge|] eqn:Hedge.
  - case_bool_decide as Hkey.
    + subst key. rewrite lookup_insert_eq, Hedge. reflexivity.
    + rewrite lookup_insert_ne by congruence.
      destruct (edges !! key); reflexivity.
  - case_bool_decide as Hkey.
    + subst key. rewrite Hedge. reflexivity.
    + destruct (edges !! key); reflexivity.
Qed.

Lemma update_keeps_unit edges source target p edge :
  edges !! (source, target) = Some edge ->
  Binary64.unit_float (strength edge) -> Binary64.unit_float p ->
  exists edge',
    update_causal_strength edges source target p !! (source, target)
    = Some edge'
    /\ Binary64.unit_float (strength edge').
Proof.
  intros Hedge Hs Hp. rewrite update_causal_strength_lookup, Hedge.
  rewrite bool_decide_eq_true_2 by reflexivity.
  eexists; split; [reflexivity|]. cbn [strength].
  exact (Binary64Facts.ema_unit _ _ Hs Hp).
Qed.

Lemma record_observations_unit observations : forall edges source target edge,
  edges !! (source, target) = Some edge ->
  Binary64.unit_float (strength edge) ->
  Forall Binary64.unit_float observations ->
  exists edge',
    record_observations edges source target observations
      !! (source, target) = Some edge'
    /\ Binary64.unit_float (strength edge').
Proof.
  induction observations as [|p observations IH];
    intros edges source target edge Hedge Hs Hall.
  - exists edge. split; assumption.
  - apply Forall_cons in Hall as [Hp Hall].
    destruct (update_keeps_unit edges source target p edge Hedge Hs Hp)
      as (edge1 & Hedge1 & Hs1).
    exact (IH _ source target edge1 Hedge1 Hs1 Hall).
Qed.
End CausalFacts.

(** C1 fails on the code: on a fresh tracker the first observation of a pair
    leaves the table without an edge for it, so not with the edge of
    strength 0.9 and count 1 that the claim describes. *)
Lemma first_observation_creates_no_edge :
  Causal.update_causal_strength ∅ "A" "B" 0.9%float !! ("A", "B") = None
  /\ Causal.update_causal_strength ∅ "A" "B" 0.9%float !! ("A", "B")
     <> Some (Causal.created_edge 0.9%float).
Proof.
  unfold Causal.update_causal_strength.
  rewrite !lookup_empty. split; [reflexivity | discriminate].
Qed.

(** Nor is an observation counted on an edge that exists. *)
Lemma observation_is_not_counted (edge : Causal.CausalEdge) (p : float) :
  Causal.observation_count <$>
    Causal.update_causal_strength {[("A", "B") := edge]} "A" "B" p
      !! ("A", "B")
  = Some (Causal.observation_count edge).
Proof.
  rewrite update_causal_strength_lookup, lookup_singleton_eq.
  rewrite bool_decide_eq_true_2 by reflexivity. reflexivity.
Qed.

(** C1, as the code has it: [update_causal_strength] never creates an edge.
    Looked up at any key, the table after the call holds an edge only where
    it held one before; the edge of the observed pair has the strength
    [0.9 * strength + 0.1 * observed_probability] and its observation count
    untouched, and every other edge is unchanged. *)
Theorem update_causal_strength_only_moves_existing_strength
    (edges : gmap (string * string) Causal.CausalEdge)
    (source target : string) (observed_probability : float)
    (key : string * string) :
  Causal.update_causal_strength edges source target observed_probability
    !! key =
  (fun edge =>
     if bool_decide (key = (source, target))
     then {| Causal.strength :=
               (0.9 * Causal.strength edge + 0.1 * observed_probability)%float;
             Causal.observation_count := Causal.observation_count edge |}
     else edge) <$> edges !! key.
Proof. apply update_causal_strength_lookup. Qed.

(** C2: an edge whose strength is in [0,1] keeps a strength in [0,1] after
    every update of a run of observations that are all in [0,1], the
    arithmetic being that of binary64 floats. *)
Theorem strength_stays_in_unit_interval
    (edges : gmap (string * string) Causal.CausalEdge)
    (source target : string) (edge : Causal.CausalEdge)
    (observations : list float) (n : nat) :
  edges !! (source, target) = Some edge ->
  Binary64.in_unit_interval (Causal.strength edge) = true ->
  Forall (fun p => Binary64.in_unit_interval p = true) observations ->
  exists edge',
    Causal.record_observations edges source target (take n observations)
      !! (source, target) = Some edge'
    /\ Binary64.in_unit_interval (Causal.strength edge') = true.
Proof.
  intros Hedge Hs Hall.
  destruct (record_observations_unit (take n observations)
              edges source target edge Hedge)
    as (edge' & Hedge' & Hs').
  - apply Binary64Facts.in_unit_interval_unit, Hs.
  - apply Forall_take. eapply Forall_impl; [exact Hall|].
    intros p. apply Binary64Facts.in_unit_interval_unit.
  - exists edge'. split; [exact Hedge'|].
    apply Binary64Facts.unit_in_unit_interval, Hs'.
Qed.

Lemma strength_stays_in_unit_interval_witness :
  Scenario.one_edge !! ("A", "B") = Some (Causal.created_edge 0.9%float)
  /\ Binary64.in_unit_interval
       (Causal.strength (Causal.created_edge 0.9%float)) = true
  /\ Forall (fun p => Binary64.in_unit_interval p = true)
       Scenario.observations
  /\ exists edge',
       Causal.record_observations Scenario.one_edge "A" "B"
         (take 2 Scenario.observations) !! ("A", "B") = Some edge'
       /\ Binary64.in_unit_interval (Causal.strength edge') = true.
Proof.
  assert (H1 : Scenario.one_edge !! ("A", "B")
               = Some (Causal.created_edge 0.9%float))
    by apply lookup_singleton_eq.
  assert (H2 : Binary64.in_unit_interval
                 (Causal.strength (Causal.created_edge 0.9%float)) = true)
    by reflexivity.
  assert (H3 : Forall (fun p => Binary64.in_unit_interval p = true)
                 Scenario.observations)
    by (repeat constructor).
  repeat split; try assumption.
  exact (strength_stays_in_unit_interval Scenario.one_edge "A" "B"
           (Causal.created_edge 0.9%float) Scenario.observations 2 H1 H2 H3).
Defined.

(** ** Beam search *)

Section BeamFacts.
Import Beam.
Variable get_initial_entities : string -> result (list entity).
Variable get_neighbors : pyval -> result (list entity).
Variable llm : option (string -> list entity -> result float).

Lemma slice_to_nil {A : Type} (n : Z) : slice_to n (@nil A) = [].
Proof. unfold slice_to. destruct (0 <=? n)%Z; apply take_nil. Qed.

Lemma step_nil (query : string) (beam_width : Z) :
  step get_neighbors llm query beam_width [] = Ok [].
Proof. unfold step. cbn. now rewrite slice_to_nil. Qed.

Lemma iterate_nil (n : nat) (query : string) (beam_width : Z) :
  iterate get_neighbors llm n query beam_width [] = Ok [].
Proof.
  induction n as [|n IH]; [reflexivity|].
  cbn [iterate]. rewrite step_nil. exact IH.
Qed.

(** With [max_depth = 0] the loop body never runs: the initial singleton
    paths come back as they are, unscored and however many they are. *)
Lemma beam_search_depth_zero (query : string) (beam_width : Z)
    (initial_entities : list entity) :
  get_initial_entities query = Ok initial_entities ->
  beam_search get_initial_entities get_neighbors llm query beam_width 0
  = Ok ((fun e => Path [e]) <$> initial_entities).
Proof. intros H. unfold beam_search. rewrite H. reflexivity. Qed.
End BeamFacts.

(** The example of the specification, one level deep, comes out as stated. *)
Example beam_search_scenario :
  Scenario.search "q" 2 1
  = Ok [Beam.Scored ["X"; "A"] 0.9%float; Beam.Scored ["X"; "B"] 0.8%float].
Proof. vm_compute. reflexivity. Qed.

(** C3 fails on the code.  With [max_depth = 0] and [beam_width = 1] the
    two initial entities come back as two bare paths: more than [beam_width]
    results, none of them a [(path, score)] pair.  With [max_depth = 2] the
    second pass takes the score of a tuple for its last entity and then adds
    a list to the tuple, which raises [TypeError]. *)
Theorem beam_search_depth_zero_and_two :
  Scenario.search "q" 1 0 = Ok [Beam.Path ["X"]; Beam.Path ["Y"]]
  /\ Scenario.search "q" 2 2 = Err TypeError.
Proof. split; vm_compute; reflexivity. Qed.

(** C7: when the seeding of the query finds no entity, [beam_search] returns
    the empty list, whatever the width and the depth, and raises nothing. *)
Theorem beam_search_without_initial_entities
    (get_initial_entities : string -> result (list Beam.entity))
    (get_neighbors : pyval -> result (list Beam.entity))
    (llm : option (string -> list Beam.entity -> result float))
    (query : string) (beam_width max_depth : Z) :
  get_initial_entities query = Ok [] ->
  Beam.beam_search get_initial_entities get_neighbors llm
    query beam_width max_depth = Ok [].
Proof.
  intros H. unfold Beam.beam_search. rewrite H. cbn [mbind result_bind fmap list_fmap].
  apply iterate_nil.
Qed.

Lemma beam_search_without_initial_entities_witness :
  Scenario.no_entities "q" = Ok []
  /\ Beam.beam_search Scenario.no_entities Scenario.get_neighbors
       (Some Scenario.score_path) "q" 2 3 = Ok [].
Proof.
  split; [reflexivity|].
  apply (beam_search_without_initial_entities Scenario.no_entities
           Scenario.get_neighbors (Some Scenario.score_path) "q" 2 3).
  reflexivity.
Defined.

(** ** The graph-backed [reason] *)

(** C8 fails on the code: [reason] never gets to return anything.  Without a
    driver the call stops on [self.driver.session()]; with one it stops on
    the unbound name [timestamp]. *)
Theorem reason_always_raises (self : Engine.engine) (query : string)
    (retrieved_info : list pyval)
    (activated_knowledge : list (string * pyval)) :
  Engine.reason self query retrieved_info activated_knowledge
  = Err (match Engine.engine_driver self with
         | None => AttributeError
         | Some _ => NameError
         end).
Proof.
  unfold Engine.reason. destruct (Engine.engine_driver self); reflexivity.
Qed.

(** The construction of the result object is stranded in [get_neighbors],
    where [query] is not bound. *)
Lemma placeholder_block_raises (self : Engine.engine) (entity : pyval) :
  Engine.get_neighbors self entity = Err NameError.
Proof. reflexivity. Qed.

(** ** Per-step uncertainty *)

(** C5: the estimate is 0.1 for [interpret_query]; for [analyze_knowledge]
    it is the mean of the uncertainties of the relevant facts of the
    knowledge, or 0.5 when there are none or the key is absent; it is 0.2 for
    [synthesize_answer]; and any other type gets 1.0 instead of an error. *)
Theorem estimate_uncertainty_by_type (np_mean : list float -> float)
    (step : Pipeline.reasoning_step) :
  (Pipeline.step_type step = "interpret_query" ->
   Pipeline._estimate_uncertainty np_mean step = Ok 0.1%float)
  /\ (Pipeline.step_type step = "analyze_knowledge" ->
      forall relevant_facts,
        Pipeline.step_content step = Pipeline.ContentKnowledge relevant_facts ->
        Pipeline._estimate_uncertainty np_mean step
        = Ok (match relevant_facts with
              | Some (fact :: facts) =>
                  np_mean (Pipeline.fact_uncertainty <$> fact :: facts)
              | Some [] | None => 0.5%float
              end))
  /\ (Pipeline.step_type step = "synthesize_answer" ->
      Pipeline._estimate_uncertainty np_mean step = Ok 0.2%float)
  /\ (Pipeline.step_type step <> "interpret_query" ->
      Pipeline.step_type step <> "analyze_knowledge" ->
      Pipeline.step_type step <> "synthesize_answer" ->
      Pipeline._estimate_uncertainty np_mean step = Ok 1%float).
Proof.
  unfold Pipeline._estimate_uncertainty. repeat split.
  - intros ->. reflexivity.
  - intros -> relevant_facts ->. cbn.
    destruct relevant_facts as [[|fact facts]|]; reflexivity.
  - intros ->. reflexivity.
  - intros H1 H2 H3.
    apply String.eqb_neq in H1, H2, H3. now rewrite H1, H2, H3.
Qed.

Lemma estimate_uncertainty_by_type_witness :
  (Pipeline.step_type Scenario.interpret_step = "interpret_query"
   /\ Pipeline._estimate_uncertainty Scenario.mean Scenario.interpret_step
      = Ok 0.1%float)
  /\ (Pipeline.step_type Scenario.knowledge_step = "analyze_knowledge"
      /\ Pipeline.step_content Scenario.knowledge_step
         = Pipeline.ContentKnowledge (Some Scenario.knowledge_facts)
      /\ Pipeline._estimate_uncertainty Scenario.mean Scenario.knowledge_step
         = Ok (Scenario.mean [0.25; 0.5]%float))
  /\ (Pipeline.step_type Scenario.synthesize_step = "synthesize_answer"
      /\ Pipeline._estimate_uncertainty Scenario.mean Scenario.synthesize_step
         = Ok 0.2%float)
  /\ (Pipeline.step_type Scenario.unknown_step <> "interpret_query"
      /\ Pipeline.step_type Scenario.unknown_step <> "analyze_knowledge"
      /\ Pipeline.step_type Scenario.unknown_step <> "synthesize_answer"
      /\ Pipeline._estimate_uncertainty Scenario.mean Scenario.unknown_step
         = Ok 1%float).
Proof.
  assert (H4a : Pipeline.step_type Scenario.unknown_step <> "interpret_query")
    by discriminate.
  assert (H4b : Pipeline.step_type Scenario.unknown_step <> "analyze_knowledge")
    by discriminate.
  assert (H4c : Pipeline.step_type Scenario.unknown_step <> "synthesize_answer")
    by discriminate.
  split; [|split; [|split]].
  - split; [reflexivity|].
    exact (proj1 (estimate_uncertainty_by_type Scenario.mean
                    Scenario.interpret_step) eq_refl).
  - split; [reflexivity|]. split; [reflexivity|].
    exact (proj1 (proj2 (estimate_uncertainty_by_type Scenario.mean
                           Scenario.knowledge_step))
             eq_refl (Some Scenario.knowledge_facts) eq_refl).
  - split; [reflexivity|].
    exact (proj1 (proj2 (proj2 (estimate_uncertainty_by_type Scenario.mean
                                  Scenario.synthesize_step))) eq_refl).
  - split; [exact H4a|]. split; [exact H4b|]. split; [exact H4c|].
    exact (proj2 (proj2 (proj2 (estimate_uncertainty_by_type Scenario.mean
                                  Scenario.unknown_step))) H4a H4b H4c).
Defined.

(** ** Uncertainty propagation *)

Section PropagationFacts.
Import Binary64 Binary64Facts.
Local Open Scope float_scope.

Lemma fold_unit (us : list float) : forall acc,
  unit_float acc -> Forall unit_float us ->
  unit_float (fold_left Pipeline.accumulate us acc).
Proof.
  induction us as [|u us IH]; intros acc Hacc Hall; [exact Hacc|].
  apply Forall_cons in Hall as [Hu Hall]. cbn [fold_left].
  apply IH; [|exact Hall]. apply mul_unit; [exact Hacc | now apply sub_unit].
Qed.

Lemma fold_zero (us : list float) : forall acc,
  zero_float acc -> Forall unit_float us ->
  zero_float (fold_left Pipeline.accumulate us acc).
Proof.
  induction us as [|u us IH]; intros acc Hacc Hall; [exact Hacc|].
  apply Forall_cons in Hall as [Hu Hall]. cbn [fold_left].
  apply IH; [|exact Hall]. apply mul_zero_l; [exact Hacc | now apply sub_unit].
Qed.

Lemma fold_with_one (us : list float) : forall acc,
  unit_float acc -> Forall unit_float us -> Exists (fun u => u = 1) us ->
  zero_float (fold_left Pipeline.accumulate us acc).
Proof.
  induction us as [|u us IH]; intros acc Hacc Hall Hex.
  - inversion Hex.
  - apply Forall_cons in Hall as [Hu Hall]. cbn [fold_left].
    apply Exists_cons in Hex as [-> | Hex].
    + apply fold_zero; [|exact Hall].
      apply mul_zero_r; [exact Hacc | exact one_minus_one_zero].
    + apply IH; [|exact Hall | exact Hex].
      apply mul_unit; [exact Hacc | now apply sub_unit].
Qed.

Lemma fold_all_zero (us : list float) :
  Forall zero_float us -> fold_left Pipeline.accumulate us 1 = 1.
Proof.
  induction us as [|u us IH]; intros Hall; [reflexivity|].
  apply Forall_cons in Hall as [Hu Hall]. cbn [fold_left].
  unfold Pipeline.accumulate at 2. rewrite (one_minus_zero u Hu).
  change (1 * 1) with 1. exact (IH Hall).
Qed.

Lemma one_unit : unit_float 1.
Proof. apply in_unit_interval_unit. reflexivity. Qed.
End PropagationFacts.

(** C4 fails on the code, whose arithmetic is binary64.  The uncertainty
    [1e-17] is in [0,1] and is not zero, yet [1 - 1e-17] rounds to [1] and the
    propagated value is exactly 0; and the propagated values of [0.1, 0.2,
    0.4] and of its rotation [0.2, 0.4, 0.1] differ in the last bit. *)
Lemma noisy_or_is_rounded :
  (Forall (fun u => Binary64.in_unit_interval u = true) [1e-17%float]
   /\ (1e-17 =? 0)%float = false
   /\ Pipeline.propagate_uncertainty [] [1e-17%float] = 0%float)
  /\ ([0.1; 0.2; 0.4]%float ≡ₚ [0.2; 0.4; 0.1]%float
      /\ Pipeline.propagate_uncertainty [] [0.1; 0.2; 0.4]%float
         <> Pipeline.propagate_uncertainty [] [0.2; 0.4; 0.1]%float).
Proof.
  split; [split; [|split] | split].
  - repeat constructor.
  - reflexivity.
  - reflexivity.
  - apply (Permutation_cons_append [0.2; 0.4]%float 0.1%float).
  - intros H. apply (f_equal (fun x => (x =? 0.568)%float)) in H.
    vm_compute in H. discriminate.
Qed.

(** C4, as the code has it: for uncertainties in [0,1] the propagated value
    is in [0,1]; it is 0 when every uncertainty is zero, and 1 when some
    uncertainty is 1. *)
Theorem propagate_uncertainty_noisy_or (reasoning_steps : list string)
    (uncertainties : list float) :
  Forall (fun u => Binary64.in_unit_interval u = true) uncertainties ->
  Binary64.in_unit_interval
    (Pipeline.propagate_uncertainty reasoning_steps uncertainties) = true
  /\ (Forall (fun u => (u =? 0)%float = true) uncertainties ->
      Pipeline.propagate_uncertainty reasoning_steps uncertainties = 0%float)
  /\ (Exists (fun u => (u =? 1)%float = true) uncertainties ->
      Pipeline.propagate_uncertainty reasoning_steps uncertainties = 1%float).
Proof.
  intros Hall. unfold Pipeline.propagate_uncertainty.
  assert (Hunit : Forall Binary64.unit_float uncertainties).
  { eapply Forall_impl; [exact Hall|].
    intros u. apply Binary64Facts.in_unit_interval_unit. }
  split; [|split].
  - apply Binary64Facts.unit_in_unit_interval, Binary64Facts.sub_unit.
    apply fold_unit; [exact one_unit | exact Hunit].
  - intros Hzero.
    rewrite fold_all_zero; [reflexivity|].
    eapply Forall_impl; [exact Hzero|].
    intros u. apply Binary64Facts.eqb_zero.
  - intros Hone.
    apply Binary64Facts.one_minus_zero.
    apply fold_with_one; [exact one_unit | exact Hunit |].
    eapply Exists_impl; [exact Hone|].
    intros u. apply Binary64Facts.eqb_one.
Qed.

Lemma propagate_uncertainty_noisy_or_witness :
  (Forall (fun u => Binary64.in_unit_interval u = true) [0.1; 0.5; 0.2]%float
   /\ Binary64.in_unit_interval
        (Pipeline.propagate_uncertainty [] [0.1; 0.5; 0.2]%float) = true)
  /\ (Forall (fun u => Binary64.in_unit_interval u = true) [0; 0]%float
      /\ Forall (fun u => (u =? 0)%float = true) [0; 0]%float
      /\ Pipeline.propagate_uncertainty [] [0; 0]%float = 0%float)
  /\ (Forall (fun u => Binary64.in_unit_interval u = true) [0.3; 1; 0.2]%float
      /\ Exists (fun u => (u =? 1)%float = true) [0.3; 1; 0.2]%float
      /\ Pipeline.propagate_uncertainty [] [0.3; 1; 0.2]%float = 1%float).
Proof.
  assert (H1 : Forall (fun u => Binary64.in_unit_interval u = true)
                 [0.1; 0.5; 0.2]%float) by (repeat constructor).
  assert (H2 : Forall (fun u => Binary64.in_unit_interval u = true)
                 [0; 0]%float) by (repeat constructor).
  assert (H2' : Forall (fun u => (u =? 0)%float = true) [0; 0]%float)
    by (repeat constructor).
  assert (H3 : Forall (fun u => Binary64.in_unit_interval u = true)
                 [0.3; 1; 0.2]%float) by (repeat constructor).
  assert (H3' : Exists (fun u => (u =? 1)%float = true) [0.3; 1; 0.2]%float)
    by (apply Exists_cons_tl, Exists_cons_hd; reflexivity).
  split; [|split].
  - split; [exact H1|].
    exact (proj1 (propagate_uncertainty_noisy_or [] _ H1)).
  - split; [exact H2|]. split; [exact H2'|].
    exact (proj1 (proj2 (propagate_uncertainty_noisy_or [] _ H2)) H2').
  - split; [exact H3|]. split; [exact H3'|].
    exact (proj2 (proj2 (propagate_uncertainty_noisy_or [] _ H3)) H3').
Defined.

(** C9: with no uncertainties at all the propagated value is exactly [0.0]. *)
Theorem propagate_uncertainty_nil (reasoning_steps : list string) :
  Pipeline.propagate_uncertainty reasoning_steps [] = 0%float.
Proof. reflexivity. Qed.

(** C10: the propagated value does not depend on [reasoning_steps]: two calls
    with the same uncertainties return the same value whatever step lists
    they are given. *)
Theorem propagate_uncertainty_ignores_steps
    (steps1 steps2 : list string) (uncertainties : list float) :
  Pipeline.propagate_uncertainty steps1 uncertainties
  = Pipeline.propagate_uncertainty steps2 uncertainties.
Proof. reflexivity. Qed.

(** ** Attribution *)

Section AttributionFacts.
Import Attribution.
Variable contribution : float -> float.

Lemma fold_insert_lookup (detailed_steps : list detailed_step) :
  forall (sources : gmap string float) (t : string),
    fold_left (fun sources step =>
                 <[type step := contribution (uncertainty step)]> sources)
              detailed_steps sources !! t
    = match last (filter (fun step => type step = t) detailed_steps) with
      | Some step => Some (contribution (uncertainty step))
      | None => sources !! t
      end.
Proof.
  induction detailed_steps as [|step detailed_steps IH]; intros sources t.
  - reflexivity.
  - cbn [fold_left]. rewrite IH, filter_cons.
    destruct (decide (type step = t)) as [Ht | Ht].
    + rewrite last_cons.
      destruct (last (filter _ detailed_steps)); [reflexivity|].
      now rewrite Ht, lookup_insert_eq.
    + destruct (last (filter _ detailed_steps)); [reflexivity|].
      now rewrite lookup_insert_ne.
Qed.
End AttributionFacts.

(** C6 fails on the code.  Two steps of one type, each of uncertainty 0.5:
    the second assignment replaces the first, and the only contribution is
    0.5, not their sum 1.  And with two steps of different types, of
    uncertainties 0.1 and 0.3, the two quotients by the rounded total add up
    to less than 1. *)
Lemma attribution_overwrites_and_rounds :
  (Attribution.analyze_uncertainty_sources Scenario.repeated_steps
     !! "analyze_knowledge" = Some 0.5%float
   /\ size (Attribution.analyze_uncertainty_sources Scenario.repeated_steps)
      = 1%nat)
  /\ (Attribution.analyze_uncertainty_sources Scenario.distinct_steps
        !! "interpret_query" = Some 0.25%float
      /\ Attribution.analyze_uncertainty_sources Scenario.distinct_steps
           !! "analyze_knowledge" = Some 0.7499999999999999%float
      /\ size (Attribution.analyze_uncertainty_sources Scenario.distinct_steps)
         = 2%nat
      /\ (0.25 + 0.7499999999999999 =? 1)%float = false).
Proof. repeat split; vm_compute; reflexivity. Qed.

(** C6, as the code has it: a step type that occurs in the trace is mapped to
    the contribution of the last step of that type, which is that step's
    uncertainty divided by the total when the total is greater than 0, and 0
    otherwise, without any division; a type that does not occur is not
    mapped. *)
Theorem analyze_uncertainty_sources_lookup
    (detailed_steps : list Attribution.detailed_step) (t : string) :
  Attribution.analyze_uncertainty_sources detailed_steps !! t
  = (fun u =>
       let total :=
         Attribution.py_sum (Attribution.uncertainty <$> detailed_steps) in
       if (0 <? total)%float then (u / total)%float else 0%float)
    <$> Attribution.last_of_type t detailed_steps.
Proof.
  unfold Attribution.analyze_uncertainty_sources, Attribution.last_of_type.
  rewrite (fold_insert_lookup
             (fun u => if (0 <? Attribution.py_sum
                                  (Attribution.uncertainty <$> detailed_steps))%float
                       then (u / Attribution.py_sum
                                   (Attribution.uncertainty <$> detailed_steps))%float
                       else 0%float)).
  destruct (last _) as [step|]; reflexivity.
Qed.
(** * Further properties of the engine *)

(** ** Observations of different pairs *)

(** X1: observations of two different pairs can be recorded in either order:
    the edge table that results is the same. *)
Theorem update_causal_strength_commute
    (edges : gmap (string * string) Causal.CausalEdge)
    (source1 target1 source2 target2 : string) (p1 p2 : float) :
  (source1, target1) <> (source2, target2) ->
  Causal.update_causal_strength
    (Causal.update_causal_strength edges source1 target1 p1)
    source2 target2 p2
  = Causal.update_causal_strength
      (Causal.update_causal_strength edges source2 target2 p2)
      source1 target1 p1.
Proof.
  intros Hne. apply map_eq. intros key.
  rewrite !update_causal_strength_lookup.
  destruct (edges !! key) as [edge|]; [|reflexivity].
  cbn [fmap option_fmap option_map].
  repeat case_bool_decide; try reflexivity. congruence.
Qed.

Lemma update_causal_strength_commute_witness :
  ("A", "B") <> ("B", "C")
  /\ Causal.update_causal_strength
       (Causal.update_causal_strength Scenario.one_edge "A" "B" 0.1%float)
       "B" "C" 0.7%float
     = Causal.update_causal_strength
         (Causal.update_causal_strength Scenario.one_edge "B" "C" 0.7%float)
         "A" "B" 0.1%float.
Proof.
  assert (H : ("A", "B") <> ("B", "C")) by discriminate.
  split; [exact H|].
  exact (update_causal_strength_commute Scenario.one_edge
           "A" "B" "B" "C" 0.1%float 0.7%float H).
Defined.

(** ** Confidence and conclusion *)

(** X2: a result without a confidence gets the uncertainty 0.5, and a float
    confidence in [0,1] gives a float uncertainty in [0,1]. *)
Theorem estimate_uncertainty_in_unit_interval
    (reasoning_result : gmap string pyval) :
  (reasoning_result !! "confidence" = None ->
   Conclusion.estimate_uncertainty reasoning_result = Ok (PFloat 0.5%float))
  /\ (forall confidence,
        reasoning_result !! "confidence" = Some (PFloat confidence) ->
        Binary64.in_unit_interval confidence = true ->
        exists uncertainty,
          Conclusion.estimate_uncertainty reasoning_result
          = Ok (PFloat uncertainty)
          /\ Binary64.in_unit_interval uncertainty = true).
Proof.
  unfold Conclusion.estimate_uncertainty. split.
  - intros ->. reflexivity.
  - intros confidence -> Hc. cbn [default Conclusion.one_minus].
    eexists. split; [reflexivity|].
    apply Binary64Facts.unit_in_unit_interval, Binary64Facts.sub_unit.
    apply Binary64Facts.in_unit_interval_unit, Hc.
Qed.

(** X3: the errors of the estimate.  [estimate_uncertainty] raises nothing
    but [TypeError], and only for a confidence that is present and is
    neither a float nor an integer: a missing key is never an error.  A
    confidence that is [None], a string, a list or a dictionary does raise
    it. *)
Theorem estimate_uncertainty_error (reasoning_result : gmap string pyval) :
  (forall e,
     Conclusion.estimate_uncertainty reasoning_result = Err e ->
     e = TypeError
     /\ exists v, reasoning_result !! "confidence" = Some v
                  /\ (forall f, v <> PFloat f) /\ (forall z, v <> PInt z))
  /\ (forall v,
        reasoning_result !! "confidence" = Some v ->
        v = PNone \/ (exists s, v = PStr s) \/ (exists items, v = PList items)
        \/ (exists items, v = PDict items) ->
        Conclusion.estimate_uncertainty reasoning_result = Err TypeError).
Proof.
  unfold Conclusion.estimate_uncertainty. split.
  - intros e.
    destruct (reasoning_result !! "confidence") as [v|]; cbn [default];
      [|discriminate].
    destruct v; cbn [Conclusion.one_minus]; try discriminate;
      (intros [= <-]; split; [reflexivity|];
       eexists; split; [reflexivity|]; split; intros; discriminate).
  - intros v -> [-> | [[s ->] | [[items ->] | [items ->]]]]; reflexivity.
Qed.

Lemma prefix_append (s t : string) : String.prefix s (s +:+ t) = true.
Proof.
  induction s as [|c s IH]; [now destruct t|].
  change (String c s +:+ t) with (String c (s +:+ t)).
  cbn [String.prefix]. now destruct (Ascii.ascii_dec c c).
Qed.

Lemma prefix_refl (s : string) : String.prefix s s = true.
Proof.
  induction s as [|c s IH]; [reflexivity|].
  cbn [String.prefix]. now destruct (Ascii.ascii_dec c c).
Qed.

(** X4: when [adjust_conclusion] returns, it returns the dictionary it was
    given with at most the conclusion changed: every other key is as before, a
    string conclusion is kept as a prefix of the new one, and with an
    uncertainty that is not above 0.5 nothing changes at all. *)
Theorem adjust_conclusion_frame
    (reasoning_result adjusted : gmap string pyval) (uncertainty : float) :
  Conclusion.adjust_conclusion reasoning_result uncertainty = Ok adjusted ->
  (forall key, key <> "conclusion" ->
               adjusted !! key = reasoning_result !! key)
  /\ (forall s, reasoning_result !! "conclusion" = Some (PStr s) ->
        exists s', adjusted !! "conclusion" = Some (PStr s')
                   /\ String.prefix s s' = true)
  /\ ((0.5 <? uncertainty)%float = false -> adjusted = reasoning_result).
Proof.
  unfold Conclusion.adjust_conclusion.
  destruct (0.5 <? uncertainty)%float.
  - destruct (reasoning_result !! "conclusion") as [v|] eqn:Hv;
      cbn [from_option mbind result_bind]; [|discriminate].
    destruct (Conclusion.iadd_str v " (High uncertainty)") as [v'|] eqn:Hv';
      cbn [mbind result_bind mret result_ret]; [|discriminate].
    intros [= <-]. split; [|split].
    + intros key Hkey. now rewrite lookup_insert_ne.
    + intros s [= ->]. cbn [Conclusion.iadd_str] in Hv'.
      injection Hv' as <-. rewrite lookup_insert_eq.
      eexists. split; [reflexivity | apply prefix_append].
    + discriminate.
  - intros [= <-]. split; [|split].
    + reflexivity.
    + intros s Hs. exists s. split; [exact Hs | apply prefix_refl].
    + reflexivity.
Qed.

Lemma estimate_uncertainty_in_unit_interval_witness :
  (Examples.bare_result !! "confidence" = None
   /\ Conclusion.estimate_uncertainty Examples.bare_result
      = Ok (PFloat 0.5%float))
  /\ (Examples.confident_result !! "confidence" = Some (PFloat 0.8%float)
      /\ Binary64.in_unit_interval 0.8%float = true
      /\ exists uncertainty,
           Conclusion.estimate_uncertainty Examples.confident_result
           = Ok (PFloat uncertainty)
           /\ Binary64.in_unit_interval uncertainty = true).
Proof.
  assert (H1 : Examples.bare_result !! "confidence" = None) by reflexivity.
  assert (H2 : Examples.confident_result !! "confidence"
               = Some (PFloat 0.8%float)) by reflexivity.
  assert (H3 : Binary64.in_unit_interval 0.8%float = true) by reflexivity.
  split.
  - split; [exact H1|].
    exact (proj1 (estimate_uncertainty_in_unit_interval _) H1).
  - split; [exact H2|]. split; [exact H3|].
    exact (proj2 (estimate_uncertainty_in_unit_interval _) _ H2 H3).
Defined.

Lemma adjust_conclusion_frame_witness :
  Conclusion.adjust_conclusion Examples.bare_result 0.7%float
  = Ok Examples.flagged_result
  /\ (forall key, key <> "conclusion" ->
        Examples.flagged_result !! key = Examples.bare_result !! key)
  /\ (forall s, Examples.bare_result !! "conclusion" = Some (PStr s) ->
        exists s', Examples.flagged_result !! "conclusion" = Some (PStr s')
                   /\ String.prefix s s' = true)
  /\ ((0.5 <? 0.7)%float = false ->
      Examples.flagged_result = Examples.bare_result).
Proof.
  assert (H : Conclusion.adjust_conclusion Examples.bare_result 0.7%float
              = Ok Examples.flagged_result) by (vm_compute; reflexivity).
  split; [exact H|].
  exact (adjust_conclusion_frame _ _ _ H).
Defined.

(** ** The combined reasoning text *)

Section CombineFacts.
Import Trace.

Lemma single_line_head (c : Ascii.ascii) (s : string) :
  single_line (String c s) = true ->
  c <> Ascii.ascii_of_nat 10 /\ single_line s = true.
Proof.
  cbn [single_line]. intros [Hc Hs]%andb_true_iff. split; [|exact Hs].
  intros ->. now rewrite Ascii.eqb_refl in Hc.
Qed.

(** Two single lines followed by nothing or by a line break and more text:
    equal wholes have equal parts. *)
Lemma line_split (a b s1 s2 : string) :
  single_line a = true -> single_line b = true ->
  (s1 = "" \/ exists t, s1 = newline +:+ t) ->
  (s2 = "" \/ exists t, s2 = newline +:+ t) ->
  a +:+ s1 = b +:+ s2 -> a = b /\ s1 = s2.
Proof.
  revert b. induction a as [|c a IH]; intros b Ha Hb H1 H2 Heq.
  - destruct b as [|c' b]; [now split|]. exfalso.
    apply single_line_head in Hb as [Hc' _].
    destruct H1 as [-> | [t ->]]; [discriminate|].
    injection Heq as Hc0 _. apply Hc'. symmetry. exact Hc0.
  - apply single_line_head in Ha as [Hc Ha].
    destruct b as [|c' b].
    + exfalso. destruct H2 as [-> | [t ->]]; [discriminate|].
      injection Heq as Hc0 _. apply Hc. exact Hc0.
    + apply single_line_head in Hb as [_ Hb].
      cbn in Heq. injection Heq as -> Heq.
      destruct (IH b Ha Hb H1 H2 Heq) as [-> ->]. now split.
Qed.

Lemma join_cons (item : string) (rest : list string) :
  join newline (item :: rest)
  = item +:+ match rest with
             | [] => ""
             | _ :: _ => newline +:+ join newline rest
             end.
Proof.
  destruct rest; cbn [join]; [|reflexivity].
  induction item as [|c item IH]; [reflexivity|].
  change (String c item +:+ "") with (String c (item +:+ "")).
  now rewrite <- IH.
Qed.

Lemma join_injective (steps1 : list string) : forall steps2,
  steps1 <> [] -> steps2 <> [] ->
  Forall (fun s => single_line s = true) steps1 ->
  Forall (fun s => single_line s = true) steps2 ->
  join newline steps1 = join newline steps2 -> steps1 = steps2.
Proof.
  induction steps1 as [|a rest1 IH]; intros steps2 Hn1 Hn2 H1 H2 Heq;
    [congruence|].
  destruct steps2 as [|b rest2]; [congruence|].
  apply Forall_cons in H1 as [Ha H1]. apply Forall_cons in H2 as [Hb H2].
  rewrite !join_cons in Heq.
  apply line_split in Heq as [-> Hrest]; try assumption.
  - f_equal. destruct rest1 as [|a1 rest1], rest2 as [|b1 rest2];
      try reflexivity.
    + destruct (join newline (b1 :: rest2)); discriminate.
    + destruct (join newline (a1 :: rest1)); discriminate.
    + apply IH; try assumption; try discriminate.
      cbn in Hrest. now injection Hrest.
  - destruct rest1; [now left | right; eauto].
  - destruct rest2; [now left | right; eauto].
Qed.
End CombineFacts.

(** X5: the combined text determines the steps: two non-empty lists of
    results without line breaks that are combined into the same text are the
    same list. *)
Theorem combine_reasoning_steps_injective (steps1 steps2 : list string) :
  steps1 <> [] -> steps2 <> [] ->
  Forall (fun s => Trace.single_line s = true) steps1 ->
  Forall (fun s => Trace.single_line s = true) steps2 ->
  Trace._combine_reasoning_steps steps1 = Trace._combine_reasoning_steps steps2 ->
  steps1 = steps2.
Proof. apply join_injective. Qed.

Lemma combine_reasoning_steps_injective_witness :
  ["a"; "b"] <> @nil string /\ ["a"; "b"] <> @nil string
  /\ Forall (fun s => Trace.single_line s = true) ["a"; "b"]
  /\ Forall (fun s => Trace.single_line s = true) ["a"; "b"]
  /\ Trace._combine_reasoning_steps ["a"; "b"]
     = Trace._combine_reasoning_steps ["a"; "b"]
  /\ ["a"; "b"] = ["a"; "b"].
Proof.
  assert (H1 : ["a"; "b"] <> @nil string) by discriminate.
  assert (H2 : Forall (fun s => Trace.single_line s = true) ["a"; "b"])
    by (repeat constructor).
  split; [exact H1|]. split; [exact H1|].
  split; [exact H2|]. split; [exact H2|]. split; [reflexivity|].
  exact (combine_reasoning_steps_injective ["a"; "b"] ["a"; "b"]
           H1 H1 H2 H2 eq_refl).
Defined.

(** The empty list and the list of one empty result are combined into the
    same empty text: without the first condition the text does not
    determine the steps. *)
Lemma combine_reasoning_steps_empty :
  Trace._combine_reasoning_steps [] = Trace._combine_reasoning_steps [""].
Proof. reflexivity. Qed.

(** ** Rounding, as a relation *)

Module Binary64Order.
Import Binary64 Binary64Facts Rounding.
Local Open Scope Z_scope.

(** Rounding to nearest, with the behaviour on ties. *)
Lemma round_shifted_tie (M k : Z) (mrs : shr_record) :
  0 <= M -> 0 <= k -> shifted M k mrs ->
  let m1 := round_nearest_even (shr_m mrs) (loc_of_shr_record mrs) in
  M / 2 ^ k <= m1 <= M / 2 ^ k + 1
  /\ (2 * m1 - 1) * 2 ^ k <= 2 * M <= (2 * m1 + 1) * 2 ^ k
  /\ (2 * M = (2 * m1 - 1) * 2 ^ k \/ 2 * M = (2 * m1 + 1) * 2 ^ k ->
      Z.even m1 = true).
Proof.
  intros HM Hk [Hm Hloc].
  assert (HP : 0 < 2 ^ k) by (apply Z.pow_pos_nonneg; lia).
  pose proof (Z.div_mod M (2 ^ k) ltac:(lia)) as Hdm.
  pose proof (Z.mod_pos_bound M (2 ^ k) HP) as Hrem.
  destruct mrs as [m r s]; cbn [shr_m shr_r shr_s] in *. subst m.
  set (P := 2 ^ k) in *. set (q := M / P) in *. set (rm := M mod P) in *.
  cbn zeta.
  destruct r, s; cbn [loc_of_shr_record round_nearest_even].
  - split; [lia|]. split; [nia|]. intros [H | H]; exfalso; nia.
  - destruct (Z.even q) eqn:Hq.
    + split; [lia|]. split; [nia|]. intros _. exact Hq.
    + split; [lia|]. split; [nia|]. intros _.
      rewrite Z.even_add, Hq. reflexivity.
  - split; [lia|]. split; [nia|]. intros [H | H]; exfalso; nia.
  - split; [lia|]. split; [nia|]. intros [H | H]; exfalso; nia.
Qed.

(** What [binary_round_aux] returns on an aligned mantissa. *)
Lemma round_aux_outcome (s : bool) (M : positive) (E : Z) :
  E <= fexp prec emax (Zpos (digits2_pos M) + E) ->
  exists mr er,
    rounds_to (Zpos M) E mr er
    /\ binary_round_aux prec emax s (Zpos M) E loc_Exact = outcome s mr er.
Proof.
  intros Hal. unfold binary_round_aux.
  pose proof (digits2_pos_bounds M) as [HMlo HMhi].
  set (d := Zpos (digits2_pos M)) in *.
  assert (Hd : 1 <= d) by (unfold d; lia).
  rewrite fexp_eq in *.
  set (e1 := Z.max (d + E - 53) (-1074)) in *.
  assert (Hn : 0 <= e1 - E) by lia.
  destruct (shr_shifted (Zpos M) E (e1 - E) ltac:(lia) Hn)
    as (mrs & Hshr & Hsh).
  assert (Hfirst : shr_fexp prec emax (Zpos M) E loc_Exact = (mrs, e1)).
  { unfold shr_fexp. cbn [Zdigits2 shr_record_of_loc].
    rewrite fexp_eq. fold d e1. rewrite Hshr. f_equal. lia. }
  rewrite Hfirst. clear Hfirst Hshr.
  pose proof (round_shifted_tie (Zpos M) (e1 - E) mrs ltac:(lia) Hn Hsh)
    as ([Hm1lo Hm1hi] & Hm1 & Htie).
  cbv zeta in Hm1lo, Hm1hi, Hm1, Htie.
  set (m1 := round_nearest_even (shr_m mrs) (loc_of_shr_record mrs)) in *.
  set (n := e1 - E) in *.
  assert (HPn : 0 < 2 ^ n) by (apply pow2_pos; lia).
  assert (Hq0 : 0 <= Zpos M / 2 ^ n) by (apply Z.div_pos; lia).
  assert (Hq : Zpos M / 2 ^ n < 2 ^ 53).
  { apply Z.div_lt_upper_bound; [lia|].
    rewrite <- Z.pow_add_r by lia.
    eapply Z.lt_le_trans; [exact HMhi | apply pow2_le; lia]. }
  assert (Hnorm : -1074 < e1 -> 2 ^ (n + 52) <= Zpos M).
  { intros He. replace (n + 52) with (d - 1) by lia. exact HMlo. }
  assert (Hq52 : -1074 < e1 -> 2 ^ 52 <= Zpos M / 2 ^ n).
  { intros He. apply Z.div_le_lower_bound; [lia|].
    rewrite <- Z.pow_add_r by lia. replace (52 + n) with (n + 52) by lia.
    now apply Hnorm. }
  assert (Hm1_0 : 0 <= m1 <= 2 ^ 53) by lia.
  destruct (renormalise m1 e1 ltac:(lia)) as (mrs2 & e2 & -> & He2 & Hm2).
  rewrite fexp_eq in He2.
  change (emax - prec) with 971.
  assert (H53 : 2 ^ 53 = 2 * 2 ^ 52) by reflexivity.
  assert (H54 : 2 ^ 54 = 4 * 2 ^ 52) by reflexivity.
  assert (H52 : 0 < 2 ^ 52) by (apply pow2_pos; lia).
  destruct (Z.eq_dec m1 (2 ^ 53)) as [Htop | Htop].
  - (* the mantissa overflowed to 2^53: one more bit is shifted out *)
    assert (Hd1 : Zdigits2 m1 = 54) by (rewrite Htop; reflexivity).
    assert (He2' : e2 = e1 + 1) by lia.
    assert (Hm2' : shr_m mrs2 = 2 ^ 52).
    { rewrite Hm2, He2', Htop. replace (e1 + 1 - e1) with 1 by lia.
      reflexivity. }
    exists (2 ^ 52), (e1 + 1). split.
    + unfold rounds_to.
      replace (e1 + 1 - E) with (n + 1) by lia.
      rewrite Z.pow_add_r, Z.pow_1_r by lia.
      rewrite Htop in Hm1.
      set (P := 2 ^ n) in *. set (a := 2 ^ 52) in *.
      rewrite H53 in *. rewrite H54.
      repeat split; try lia; try nia.
    + rewrite Hm2', He2'. unfold outcome.
      change (2 ^ 52) with (Zpos one_m). reflexivity.
  - (* no overflow of the mantissa: the result is at the first exponent *)
    assert (Hd1 : Zdigits2 m1 <= 53) by (apply Zdigits2_le_53; lia).
    assert (Hd1' : 0 <= Zdigits2 m1) by (destruct m1; cbn; lia).
    assert (He2' : e2 = e1) by lia.
    assert (Hm2' : shr_m mrs2 = m1).
    { rewrite Hm2, He2', Z.sub_diag, Z.pow_0_r. apply Z.div_1_r. }
    exists m1, e1. split.
    + unfold rounds_to. fold n.
      repeat split; try lia.
      * exact Htie.
      * intros He. specialize (Hnorm He).
        rewrite Z.pow_add_r in Hnorm by lia.
        set (P := 2 ^ n) in *. set (a := 2 ^ 52) in *. rewrite H54. nia.
    + rewrite Hm2', He2'. unfold outcome.
      destruct m1 as [|p|p]; try reflexivity. lia.
Qed.

(** The order of the exact values is the order of the rounded ones. *)
Lemma rounds_to_mono (M E mr er M' E' mr' er' S : Z) :
  0 <= E + S -> 0 <= E' + S -> 0 <= M -> 0 <= M' ->
  rounds_to M E mr er -> rounds_to M' E' mr' er' ->
  M * 2 ^ (E + S) <= M' * 2 ^ (E' + S) ->
  mr * 2 ^ (er + S) <= mr' * 2 ^ (er' + S).
Proof.
  intros HES HES' HM HM'
    (HE & Her & Hmr & Hnorm & Hint & Htie & Hlow)
    (HE' & Her' & Hmr' & Hnorm' & Hint' & Htie' & Hlow') Hle.
  assert (Hs : 2 ^ (er + S) = 2 ^ (er - E) * 2 ^ (E + S)).
  { rewrite <- Z.pow_add_r by lia. f_equal. lia. }
  assert (Hs' : 2 ^ (er' + S) = 2 ^ (er' - E') * 2 ^ (E' + S)).
  { rewrite <- Z.pow_add_r by lia. f_equal. lia. }
  assert (HA : 0 < 2 ^ (E + S)) by (apply pow2_pos; lia).
  assert (HA' : 0 < 2 ^ (E' + S)) by (apply pow2_pos; lia).
  assert (HB : 0 < 2 ^ (er - E)) by (apply pow2_pos; lia).
  assert (HB' : 0 < 2 ^ (er' - E')) by (apply pow2_pos; lia).
  assert (HC : 0 < 2 ^ (er + S)) by (apply pow2_pos; lia).
  assert (HC' : 0 < 2 ^ (er' + S)) by (apply pow2_pos; lia).
  assert (H53 : 2 ^ 53 = 2 * 2 ^ 52) by reflexivity.
  assert (H54 : 2 ^ 54 = 4 * 2 ^ 52) by reflexivity.
  assert (H52 : 0 < 2 ^ 52) by (apply pow2_pos; lia).
  (* the intervals, scaled *)
  assert (Hlo : (2 * mr - 1) * 2 ^ (er + S) <= 2 * (M * 2 ^ (E + S))).
  { rewrite Hs. destruct Hint as [Hint _].
    apply (Z.mul_le_mono_nonneg_r _ _ (2 ^ (E + S))) in Hint; lia. }
  assert (Hhi' : 2 * (M' * 2 ^ (E' + S)) <= (2 * mr' + 1) * 2 ^ (er' + S)).
  { rewrite Hs'. destruct Hint' as [_ Hint'].
    apply (Z.mul_le_mono_nonneg_r _ _ (2 ^ (E' + S))) in Hint'; lia. }
  assert (Hcancel : forall x y, 2 * (x * 2 ^ (E + S)) = y * 2 ^ (er + S) ->
                      2 * x = y * 2 ^ (er - E)).
  { intros x y H. rewrite Hs in H.
    apply (Z.mul_reg_r _ _ (2 ^ (E + S))); lia. }
  assert (Hcancel' : forall x y, 2 * (x * 2 ^ (E' + S)) = y * 2 ^ (er' + S) ->
                       2 * x = y * 2 ^ (er' - E')).
  { intros x y H. rewrite Hs' in H.
    apply (Z.mul_reg_r _ _ (2 ^ (E' + S))); lia. }
  clear Hs Hs' Hint Hint'.
  rewrite H53 in *. set (a := 2 ^ 52) in *.
  set (c := 2 ^ (er + S)) in *. set (c' := 2 ^ (er' + S)) in *.
  set (V := M * 2 ^ (E + S)) in *. set (V' := M' * 2 ^ (E' + S)) in *.
  destruct (Z.lt_trichotomy er er') as [Hlt | [Heq | Hgt]].
  - assert (H2 : 2 * c <= c').
    { unfold c, c'. rewrite <- (Z.pow_succ_r 2) by lia. apply pow2_le; lia. }
    assert (Ha : a <= mr') by (apply Hnorm'; lia).
    assert (K1 : mr * c <= (2 * a) * c)
      by (apply Z.mul_le_mono_nonneg_r; lia).
    assert (K2 : a * (2 * c) <= a * c')
      by (apply Z.mul_le_mono_nonneg_l; lia).
    assert (K3 : a * c' <= mr' * c')
      by (apply Z.mul_le_mono_nonneg_r; lia).
    lia.
  - assert (Hc : c' = c) by (unfold c, c'; now rewrite Heq).
    rewrite Hc in Hhi'.
    assert (Hm : 2 * mr - 1 <= 2 * mr' + 1).
    { apply (Z.mul_le_mono_pos_r _ _ c); lia. }
    destruct (Z.eq_dec mr (mr' + 1)) as [Hm1 | Hm1].
    + exfalso.
      assert (HV : 2 * V = (2 * mr - 1) * c) by (rewrite Hm1 in *; lia).
      assert (HV' : 2 * V' = (2 * mr' + 1) * c) by (rewrite Hm1 in *; lia).
      assert (Hev : Z.even mr = true).
      { apply Htie. left. now apply Hcancel. }
      assert (Hev' : Z.even mr' = true).
      { apply Htie'. right. apply Hcancel'.
        change (2 * V' = (2 * mr' + 1) * c'). rewrite Hc. exact HV'. }
      rewrite Hm1, Z.even_add, Hev' in Hev. discriminate.
    + rewrite Hc. apply Z.mul_le_mono_nonneg_r; lia.
  - exfalso.
    assert (H2 : 2 * c' <= c).
    { unfold c, c'. rewrite <- (Z.pow_succ_r 2) by lia. apply pow2_le; lia. }
    specialize (Hlow ltac:(lia)).
    assert (Hlow4 : (4 * a - 1) * c <= 4 * V).
    { assert (H : (4 * a - 1) * 2 ^ (er - E) * 2 ^ (E + S)
                 <= 4 * M * 2 ^ (E + S)).
      { apply Z.mul_le_mono_nonneg_r; [lia|].
        rewrite H54 in Hlow. exact Hlow. }
      unfold c, V.
      replace (2 ^ (er + S)) with (2 ^ (er - E) * 2 ^ (E + S)).
      - lia.
      - rewrite <- Z.pow_add_r by lia. f_equal. lia. }
    assert (K1 : (2 * mr' + 1) * c' <= (4 * a - 1) * c')
      by (apply Z.mul_le_mono_nonneg_r; lia).
    assert (K2 : (4 * a - 1) * (2 * c') <= (4 * a - 1) * c)
      by (apply Z.mul_le_mono_nonneg_l; lia).
    assert (Heq2 : 2 * V' = (2 * mr' + 1) * c') by lia.
    assert (Heq1 : (2 * mr' + 1) * c' = (4 * a - 1) * c') by lia.
    apply Z.mul_reg_r in Heq1; [|lia].
    assert (Hev' : Z.even mr' = true).
    { apply Htie'. right. now apply Hcancel'. }
    assert (Hodd : mr' = 1 + 2 * (a - 1)) by lia.
    rewrite Hodd, Z.even_add_mul_2 in Hev'. discriminate.
Qed.

(** A float of the format is the rounding of its own value. *)
Lemma rounds_to_scaled (m : positive) (e k : Z) :
  canonical m e -> 0 <= k ->
  rounds_to (Zpos m * 2 ^ k) (e - k) (Zpos m) e.
Proof.
  intros (He & Hm & Hnorm) Hk. unfold rounds_to.
  replace (e - (e - k)) with k by lia.
  assert (HP : 0 < 2 ^ k) by (apply pow2_pos; lia).
  assert (H54 : 2 ^ 54 = 4 * 2 ^ 52) by reflexivity.
  set (P := 2 ^ k) in *.
  repeat split; try lia.
  intros He'. specialize (Hnorm He'). rewrite H54.
  set (a := 2 ^ 52) in *. nia.
Qed.

(** Two roundings of the same value agree. *)
Lemma rounds_to_unique (M E mr er mr' er' : Z) :
  0 <= M -> rounds_to M E mr er -> rounds_to M E mr' er' ->
  mr = mr' /\ er = er'.
Proof.
  intros HM H H'.
  pose proof (rounds_to_mono M E mr er M E mr' er' (1074 - E)
                ltac:(lia) ltac:(lia) HM HM H H' ltac:(lia)) as H1.
  pose proof (rounds_to_mono M E mr' er' M E mr er (1074 - E)
                ltac:(lia) ltac:(lia) HM HM H' H ltac:(lia)) as H2.
  destruct H as (HE & Her & Hmr & Hnorm & _).
  destruct H' as (HE' & Her' & Hmr' & Hnorm' & _).
  assert (Heq : mr * 2 ^ (er + (1074 - E)) = mr' * 2 ^ (er' + (1074 - E)))
    by lia.
  clear H1 H2.
  assert (H53 : 2 ^ 53 = 2 * 2 ^ 52) by reflexivity.
  assert (H52 : 0 < 2 ^ 52) by (apply pow2_pos; lia).
  assert (HC : 0 < 2 ^ (er + (1074 - E))) by (apply pow2_pos; lia).
  assert (HC' : 0 < 2 ^ (er' + (1074 - E))) by (apply pow2_pos; lia).
  rewrite H53 in *. set (a := 2 ^ 52) in *.
  destruct (Z.lt_trichotomy er er') as [Hlt | [-> | Hgt]].
  - exfalso.
    assert (H2 : 2 * 2 ^ (er + (1074 - E)) <= 2 ^ (er' + (1074 - E))).
    { rewrite <- (Z.pow_succ_r 2) by lia. apply pow2_le; lia. }
    assert (Ha : a <= mr') by (apply Hnorm'; lia).
    set (c := 2 ^ (er + (1074 - E))) in *.
    set (c' := 2 ^ (er' + (1074 - E))) in *.
    assert (K1 : mr * c < (2 * a) * c)
      by (apply Z.mul_lt_mono_pos_r; lia).
    assert (K2 : a * (2 * c) <= a * c')
      by (apply Z.mul_le_mono_nonneg_l; lia).
    assert (K3 : a * c' <= mr' * c')
      by (apply Z.mul_le_mono_nonneg_r; lia).
    lia.
  - split; [|reflexivity]. apply Z.mul_reg_r in Heq; lia.
  - exfalso.
    assert (H2 : 2 * 2 ^ (er' + (1074 - E)) <= 2 ^ (er + (1074 - E))).
    { rewrite <- (Z.pow_succ_r 2) by lia. apply pow2_le; lia. }
    assert (Ha : a <= mr) by (apply Hnorm; lia).
    set (c := 2 ^ (er + (1074 - E))) in *.
    set (c' := 2 ^ (er' + (1074 - E))) in *.
    assert (K1 : mr' * c' < (2 * a) * c')
      by (apply Z.mul_lt_mono_pos_r; lia).
    assert (K2 : a * (2 * c') <= a * c)
      by (apply Z.mul_le_mono_nonneg_l; lia).
    assert (K3 : a * c <= mr * c)
      by (apply Z.mul_le_mono_nonneg_r; lia).
    lia.
Qed.

(** The value of an outcome that is not an infinity. *)
Lemma outcome_val (mr er : Z) :
  0 <= mr -> sf_nonneg (outcome false mr er) ->
  sf_val (outcome false mr er) = mr * 2 ^ (er + 1074).
Proof.
  intros Hmr. unfold outcome. destruct mr as [|p|p]; try lia.
  - intros _. reflexivity.
  - destruct (er <=? 971); [reflexivity | contradiction].
Qed.

(** What [binary_round] returns, in terms of an aligned mantissa of the same
    value. *)
Lemma binary_round_outcome (s : bool) (M : positive) (E : Z) :
  exists Mz Ez mr er,
    Ez <= E /\ Z.min E (-1074) <= Ez
    /\ Zpos Mz = Zpos M * 2 ^ (E - Ez)
    /\ rounds_to (Zpos Mz) Ez mr er
    /\ binary_round prec emax s M E = outcome s mr er.
Proof.
  unfold binary_round.
  destruct (shl_align_spec M E (fexp prec emax (Zpos (digits2_pos M) + E)))
    as (mz & -> & Hmz & Hdz).
  rewrite fexp_eq in *. set (ez := Z.min E _) in *.
  destruct (round_aux_outcome s mz ez) as (mr & er & Hr & ->).
  { rewrite fexp_eq, Hdz. unfold ez. lia. }
  exists mz, ez, mr, er.
  split; [unfold ez; lia|]. split; [unfold ez; lia|].
  split; [exact Hmz|]. split; [exact Hr | reflexivity].
Qed.
End Binary64Order.

(** ** Monotone operations *)

Module Binary64Mono.
Import Binary64 Binary64Facts Rounding Binary64Order.
Local Open Scope Z_scope.

Lemma sf_val_pos (m : positive) (e : Z) :
  -1074 <= e -> 0 < sf_val (S754_finite false m e).
Proof.
  intros He. cbn [sf_val]. apply Z.mul_pos_pos; [lia | apply pow2_pos; lia].
Qed.

(** Dividing a comparison of values by the scale of the products. *)
Lemma unscale (m e m' e' : Z) :
  -1074 <= e -> -1074 <= e' ->
  m * 2 ^ (e + 2148) <= m' * 2 ^ (e' + 2148) ->
  m * 2 ^ (e + 1074) <= m' * 2 ^ (e' + 1074).
Proof.
  intros He He' H.
  replace (e + 2148) with ((e + 1074) + 1074) in H by lia.
  replace (e' + 2148) with ((e' + 1074) + 1074) in H by lia.
  rewrite (Z.pow_add_r 2 (e + 1074) 1074), (Z.pow_add_r 2 (e' + 1074) 1074),
    !Z.mul_assoc in H by lia.
  assert (HU : 0 < 2 ^ 1074) by (apply pow2_pos; lia).
  set (U := 2 ^ 1074) in *.
  apply (Z.mul_le_mono_pos_r _ _ U); [exact HU | exact H].
Qed.

(** Multiplication of non-negative floats is monotone. *)
Lemma SFmul_mono (x y x' y' : spec_float) :
  valid_binary x = true -> valid_binary y = true ->
  valid_binary x' = true -> valid_binary y' = true ->
  sf_nonneg x -> sf_nonneg y -> sf_nonneg x' -> sf_nonneg y' ->
  sf_val x <= sf_val x' -> sf_val y <= sf_val y' ->
  sf_nonneg (SF64mul x y) -> sf_nonneg (SF64mul x' y') ->
  sf_val (SF64mul x y) <= sf_val (SF64mul x' y').
Proof.
  intros Hvx Hvy Hvx' Hvy' Hx Hy Hx' Hy' Hxx Hyy Hr Hr'.
  destruct x as [sx | | | [] mx ex]; try contradiction;
    [destruct y as [sy | | | [] my ey]; try contradiction;
     apply sf_val_nonneg|].
  destruct y as [sy | | | [] my ey]; try contradiction;
    [apply sf_val_nonneg|].
  apply valid_canonical in Hvx, Hvy.
  pose proof (sf_val_pos mx ex ltac:(destruct Hvx; lia)) as Hpx.
  pose proof (sf_val_pos my ey ltac:(destruct Hvy; lia)) as Hpy.
  destruct x' as [sx' | | | [] mx' ex']; try contradiction;
    [cbn [sf_val] in Hxx, Hpx; lia|].
  destruct y' as [sy' | | | [] my' ey']; try contradiction;
    [cbn [sf_val] in Hyy, Hpy; lia|].
  apply valid_canonical in Hvx', Hvy'.
  cbn [SF64mul SFmul xorb] in *.
  destruct (round_aux_outcome false (mx * my) (ex + ey)
              (mul_aligned mx my ex ey Hvx Hvy)) as (mr & er & Hro & Heq).
  destruct (round_aux_outcome false (mx' * my') (ex' + ey')
              (mul_aligned mx' my' ex' ey' Hvx' Hvy'))
    as (mr' & er' & Hro' & Heq').
  rewrite Heq in *. rewrite Heq' in *.
  pose proof Hro as (_ & Her & Hmr & _). pose proof Hro' as (_ & Her' & Hmr' & _).
  rewrite !outcome_val by (assumption || lia).
  apply unscale; try lia.
  destruct Hvx as (Hex & _), Hvy as (Hey & _),
           Hvx' as (Hex' & _), Hvy' as (Hey' & _).
  apply (rounds_to_mono (Zpos (mx * my)) (ex + ey) mr er
           (Zpos (mx' * my')) (ex' + ey') mr' er' 2148);
    try lia; try assumption.
  cbn [sf_val] in Hxx, Hyy, Hpx, Hpy.
  replace (ex + ey + 2148) with ((ex + 1074) + (ey + 1074)) by lia.
  replace (ex' + ey' + 2148) with ((ex' + 1074) + (ey' + 1074)) by lia.
  rewrite (Z.pow_add_r 2 (ex + 1074)), (Z.pow_add_r 2 (ex' + 1074)),
    !Pos2Z.inj_mul by lia.
  set (a := Zpos mx * 2 ^ (ex + 1074)) in *.
  set (b := Zpos my * 2 ^ (ey + 1074)) in *.
  set (a' := Zpos mx' * 2 ^ (ex' + 1074)) in *.
  set (b' := Zpos my' * 2 ^ (ey' + 1074)) in *.
  replace (Zpos mx * Zpos my * (2 ^ (ex + 1074) * 2 ^ (ey + 1074)))
    with (a * b) by (unfold a, b; ring).
  replace (Zpos mx' * Zpos my' * (2 ^ (ex' + 1074) * 2 ^ (ey' + 1074)))
    with (a' * b') by (unfold a', b'; ring).
  apply Z.mul_le_mono_nonneg; lia.
Qed.

(** Rounding a positive integer multiple of [2^e]. *)
Lemma binary_normalize_outcome (D e : Z) :
  0 < D -> -1074 <= e ->
  exists Mz Ez mr er,
    0 <= Mz /\ 0 <= Ez + 1074
    /\ Mz * 2 ^ (Ez + 1074) = D * 2 ^ (e + 1074)
    /\ rounds_to Mz Ez mr er
    /\ binary_normalize prec emax D e false = outcome false mr er.
Proof.
  intros HD He. destruct D as [|p|p]; try lia. cbn [binary_normalize].
  destruct (binary_round_outcome false p e)
    as (Mz & Ez & mr & er & HEz & HEz' & HMz & Hro & Heq).
  exists (Zpos Mz), Ez, mr, er.
  split; [lia|]. split; [lia|]. split; [|split; assumption].
  rewrite HMz, <- Z.mul_assoc, <- Z.pow_add_r by lia.
  do 2 f_equal. lia.
Qed.

(** The difference of two positive floats, aligned on the smaller
    exponent. *)
Lemma SFsub_aligned (mz : positive) (ez : Z) (my : positive) (ey : Z) :
  -1074 <= ez -> -1074 <= ey ->
  exists D,
    SF64sub (S754_finite false mz ez) (S754_finite false my ey)
    = binary_normalize prec emax D (Z.min ez ey) false
    /\ D * 2 ^ (Z.min ez ey + 1074)
       = Zpos mz * 2 ^ (ez + 1074) - Zpos my * 2 ^ (ey + 1074).
Proof.
  intros Hez Hey. cbn [SF64sub SFsub].
  destruct (shl_align_spec mz ez (Z.min ez ey)) as (mz' & -> & Hmz' & _).
  destruct (shl_align_spec my ey (Z.min ez ey)) as (my' & -> & Hmy' & _).
  cbn [fst cond_Zopp].
  set (e0 := Z.min ez ey) in *.
  replace (Z.min ez e0) with e0 in * by (unfold e0; lia).
  replace (Z.min ey e0) with e0 in * by (unfold e0; lia).
  eexists. split; [reflexivity|].
  rewrite Z.mul_sub_distr_r, Hmz', Hmy', <- !Z.mul_assoc, <- !Z.pow_add_r
    by (unfold e0; lia).
  f_equal; do 2 f_equal; lia.
Qed.

(** Subtraction from a positive float decreases with the subtrahend. *)
Lemma SFsub_anti (mz : positive) (ez : Z) (y y' : spec_float) :
  canonical mz ez -> valid_binary y = true -> valid_binary y' = true ->
  sf_nonneg y -> sf_nonneg y' ->
  sf_val y <= sf_val y' -> sf_val y' <= Zpos mz * 2 ^ (ez + 1074) ->
  sf_val (SF64sub (S754_finite false mz ez) y')
  <= sf_val (SF64sub (S754_finite false mz ez) y).
Proof.
  intros Hz Hvy Hvy' Hy Hy' Hyy Hyz.
  destruct (SFsub_le mz ez y Hz Hvy Hy ltac:(lia)) as [Hn Hb].
  destruct (SFsub_le mz ez y' Hz Hvy' Hy' Hyz) as [Hn' Hb'].
  destruct y as [sy | | | [] my ey]; try contradiction; [exact Hb'|].
  apply valid_canonical in Hvy.
  pose proof (sf_val_pos my ey ltac:(destruct Hvy; lia)) as Hpy.
  destruct y' as [sy' | | | [] my' ey']; try contradiction;
    [cbn [sf_val] in Hyy, Hpy; lia|].
  apply valid_canonical in Hvy'.
  destruct Hz as (Hez & ?), Hvy as (Hey & ?), Hvy' as (Hey' & ?).
  destruct (SFsub_aligned mz ez my ey ltac:(lia) ltac:(lia)) as (D & HD & HDv).
  destruct (SFsub_aligned mz ez my' ey' ltac:(lia) ltac:(lia))
    as (D' & HD' & HDv').
  rewrite HD in *. rewrite HD' in *. cbn [sf_val] in Hyy, Hyz.
  set (e0 := Z.min ez ey) in *. set (e0' := Z.min ez ey') in *.
  assert (HP : 0 < 2 ^ (e0 + 1074)) by (apply pow2_pos; unfold e0; lia).
  assert (HP' : 0 < 2 ^ (e0' + 1074)) by (apply pow2_pos; unfold e0'; lia).
  destruct (Z.le_gt_cases D' 0) as [HD0 | HD0].
  - (* the smaller difference is zero *)
    assert (D' = 0) by nia. subst D'. cbn [binary_normalize sf_val].
    apply sf_val_nonneg.
  - assert (HDpos : 0 < D) by nia.
    destruct (binary_normalize_outcome D e0 HDpos ltac:(unfold e0; lia))
      as (Mz & Ez & mr & er & HMz & HEz & HV & Hro & Heq).
    destruct (binary_normalize_outcome D' e0' HD0 ltac:(unfold e0'; lia))
      as (Mz' & Ez' & mr' & er' & HMz' & HEz' & HV' & Hro' & Heq').
    rewrite Heq in *. rewrite Heq' in *.
    pose proof Hro as (_ & Her & Hmr & _).
    pose proof Hro' as (_ & Her' & Hmr' & _).
    rewrite !outcome_val by (assumption || lia).
    apply (rounds_to_mono Mz' Ez' mr' er' Mz Ez mr er 1074);
      try lia; try assumption.
Qed.
End Binary64Mono.

(** ** Comparison and exact products *)

Module Binary64Compare.
Import Binary64 Binary64Facts Rounding Binary64Order Binary64Mono.
Local Open Scope Z_scope.

(** Among canonical pairs the exponent decides. *)
Lemma canonical_lt_exp (m1 m2 : positive) (e1 e2 : Z) :
  canonical m1 e1 -> canonical m2 e2 -> e1 < e2 ->
  Zpos m1 * 2 ^ (e1 + 1074) < Zpos m2 * 2 ^ (e2 + 1074).
Proof.
  intros (He1 & Hm1 & _) (He2 & _ & Hn2) Hlt.
  specialize (Hn2 ltac:(lia)).
  replace (e2 + 1074) with ((e2 - e1 - 1) + (1 + (e1 + 1074))) by lia.
  rewrite (Z.pow_add_r 2 (e2 - e1 - 1)), (Z.pow_add_r 2 1) by lia.
  assert (HP : 0 < 2 ^ (e1 + 1074)) by (apply pow2_pos; lia).
  assert (HQ : 0 < 2 ^ (e2 - e1 - 1)) by (apply pow2_pos; lia).
  set (P := 2 ^ (e1 + 1074)) in *. set (Q := 2 ^ (e2 - e1 - 1)) in *.
  change (2 ^ 53) with 9007199254740992 in Hm1.
  change (2 ^ 52) with 4503599627370496 in Hn2.
  change (2 ^ 1) with 2.
  replace (Zpos m2 * (Q * (2 * P))) with (Zpos m2 * Q * 2 * P) by ring.
  apply Z.mul_lt_mono_pos_r; [exact HP|].
  assert (Zpos m2 <= Zpos m2 * Q) by nia. lia.
Qed.

Lemma canonical_le (m1 m2 : positive) (e1 e2 : Z) :
  canonical m1 e1 -> canonical m2 e2 ->
  (e1 < e2 \/ (e1 = e2 /\ Zpos m1 <= Zpos m2)) <->
  Zpos m1 * 2 ^ (e1 + 1074) <= Zpos m2 * 2 ^ (e2 + 1074).
Proof.
  intros H1 H2. split.
  - intros [Hlt | [-> Hm]].
    + apply Z.lt_le_incl, canonical_lt_exp; assumption.
    + apply Z.mul_le_mono_nonneg_r; [apply Z.pow_nonneg; lia | exact Hm].
  - intros Hle. destruct (Z.lt_trichotomy e1 e2) as [Hlt | [-> | Hgt]].
    + now left.
    + right. split; [reflexivity|].
      assert (HP : 0 < 2 ^ (e2 + 1074))
        by (apply pow2_pos; destruct H2; lia).
      apply (Z.mul_le_mono_pos_r _ _ (2 ^ (e2 + 1074))); assumption.
    + pose proof (canonical_lt_exp m2 m1 e2 e1 H2 H1 Hgt). lia.
Qed.

Lemma canonical_lt (m1 m2 : positive) (e1 e2 : Z) :
  canonical m1 e1 -> canonical m2 e2 ->
  (e1 < e2 \/ (e1 = e2 /\ Zpos m1 < Zpos m2)) <->
  Zpos m1 * 2 ^ (e1 + 1074) < Zpos m2 * 2 ^ (e2 + 1074).
Proof.
  intros H1 H2. pose proof (canonical_le m2 m1 e2 e1 H2 H1) as Hle.
  split.
  - intros H. apply Z.nle_gt. intros Hc. apply Hle in Hc. lia.
  - intros H.
    destruct (Z.lt_trichotomy e1 e2) as [Hlt | [-> | Hgt]]; [now left | |].
    + right. split; [reflexivity|]. apply Z.nle_gt. intros Hc.
      assert (Hx : e2 < e2 \/ e2 = e2 /\ Zpos m2 <= Zpos m1) by lia.
      apply Hle in Hx. lia.
    + assert (Hx : e2 < e1 \/ e2 = e1 /\ Zpos m2 <= Zpos m1) by lia.
      apply Hle in Hx. lia.
Qed.

Lemma SFltb_pos (m1 m2 : positive) (e1 e2 : Z) :
  SFltb (S754_finite false m1 e1) (S754_finite false m2 e2) = true <->
  e1 < e2 \/ (e1 = e2 /\ Zpos m1 < Zpos m2).
Proof.
  unfold SFltb, SFcompare.
  pose proof (Pos.compare_spec m1 m2) as Hc. unfold Pos.compare in Hc.
  destruct (Z.compare_spec e1 e2) as [He | He | He].
  - destruct Hc as [Hm | Hm | Hm]; split; intros H;
      try discriminate; try reflexivity; lia.
  - split; [intros _; lia | reflexivity].
  - split; [discriminate | lia].
Qed.

(** Comparison of floats that are not negative is comparison of values. *)
Lemma SFleb_val (x y : spec_float) :
  valid_binary x = true -> valid_binary y = true ->
  sf_nonneg x -> sf_nonneg y ->
  SFleb x y = true <-> sf_val x <= sf_val y.
Proof.
  intros Hvx Hvy Hx Hy.
  destruct x as [sx | | | [] mx ex]; try contradiction;
    destruct y as [sy | | | [] my ey]; try contradiction.
  - cbn. split; [lia | reflexivity].
  - split; [intros _; apply sf_val_nonneg | destruct sx; reflexivity].
  - apply valid_canonical in Hvx.
    pose proof (sf_val_pos mx ex ltac:(destruct Hvx; lia)) as Hp.
    split; [destruct sy; discriminate|].
    change (sf_val (S754_zero sy)) with 0. lia.
  - apply valid_canonical in Hvx, Hvy. rewrite SFleb_pos.
    apply canonical_le; assumption.
Qed.

Lemma SFltb_val (x y : spec_float) :
  valid_binary x = true -> valid_binary y = true ->
  sf_nonneg x -> sf_nonneg y ->
  SFltb x y = true <-> sf_val x < sf_val y.
Proof.
  intros Hvx Hvy Hx Hy.
  destruct x as [sx | | | [] mx ex]; try contradiction;
    destruct y as [sy | | | [] my ey]; try contradiction.
  - cbn. split; [discriminate | lia].
  - apply valid_canonical in Hvy.
    pose proof (sf_val_pos my ey ltac:(destruct Hvy; lia)) as Hp.
    split; [intros _; exact Hp | destruct sx; reflexivity].
  - split; [destruct sy; discriminate|].
    pose proof (sf_val_nonneg (S754_finite false mx ex)).
    change (sf_val (S754_zero sy)) with 0. lia.
  - apply valid_canonical in Hvx, Hvy. rewrite SFltb_pos.
    apply canonical_lt; assumption.
Qed.

Lemma unit_leb (x y : float) :
  unit_float x -> unit_float y ->
  (x <=? y)%float = true <-> sf_val (Prim2SF x) <= sf_val (Prim2SF y).
Proof.
  intros [Hx _] [Hy _]. rewrite FloatAxioms.leb_spec.
  apply SFleb_val; auto using Prim2SF_valid.
Qed.

Lemma unit_ltb (x y : float) :
  unit_float x -> unit_float y ->
  (x <? y)%float = true <-> sf_val (Prim2SF x) < sf_val (Prim2SF y).
Proof.
  intros [Hx _] [Hy _]. rewrite FloatAxioms.ltb_spec.
  apply SFltb_val; auto using Prim2SF_valid.
Qed.

(** A float that is at least a unit float and at most 1 is a unit float. *)
Lemma unit_between (x y : float) :
  unit_float x -> (x <=? y)%float = true -> (y <=? 1)%float = true ->
  unit_float y.
Proof.
  intros [Hx _] Hxy Hy1. apply in_unit_interval_unit.
  unfold in_unit_interval. rewrite Hy1, andb_true_r.
  rewrite FloatAxioms.leb_spec in *. rewrite Prim2SF_zero, Prim2SF_one in *.
  destruct (Prim2SF x) as [sx | | | [] mx ex]; try contradiction;
    destruct (Prim2SF y) as [sy | [] | | [] my ey];
    try discriminate; try reflexivity; destruct sx; discriminate.
Qed.

Lemma mul_mono (x y x' y' : float) :
  unit_float x -> unit_float y -> unit_float x' -> unit_float y' ->
  sf_val (Prim2SF x) <= sf_val (Prim2SF x') ->
  sf_val (Prim2SF y) <= sf_val (Prim2SF y') ->
  sf_val (Prim2SF (x * y)) <= sf_val (Prim2SF (x' * y')).
Proof.
  intros Hx Hy Hx' Hy' Hxx Hyy.
  destruct (mul_unit x y Hx Hy) as [Hn _].
  destruct (mul_unit x' y' Hx' Hy') as [Hn' _].
  rewrite !mul_spec in *.
  destruct Hx as [Hx _], Hy as [Hy _], Hx' as [Hx' _], Hy' as [Hy' _].
  apply SFmul_mono; auto using Prim2SF_valid.
Qed.

Lemma sub_anti (x x' : float) :
  unit_float x -> unit_float x' ->
  sf_val (Prim2SF x) <= sf_val (Prim2SF x') ->
  sf_val (Prim2SF (1 - x')) <= sf_val (Prim2SF (1 - x)).
Proof.
  intros [Hx Hxv] [Hx' Hxv'] Hxx. rewrite !sub_spec, Prim2SF_one.
  apply SFsub_anti; auto using Prim2SF_valid, one_canonical.
  all: rewrite one_val; exact Hxv'.
Qed.

(** Multiplication by [1.0] is exact, for every float. *)
Lemma mul_one_r (x : float) : (x * 1)%float = x.
Proof.
  apply Prim2SF_inj. rewrite mul_spec, Prim2SF_one.
  pose proof (Prim2SF_valid x) as Hv.
  destruct (Prim2SF x) as [s | s | | s m e]; cbn [SF64mul SFmul].
  - now rewrite xorb_false_r.
  - now rewrite xorb_false_r.
  - reflexivity.
  - apply valid_canonical in Hv. rewrite xorb_false_r.
    destruct (round_aux_outcome s (m * one_m) (e + -52)
                (mul_aligned m one_m e (-52) Hv one_canonical))
      as (mr & er & Hro & ->).
    pose proof (rounds_to_scaled m e 52 Hv ltac:(lia)) as Hs.
    rewrite Pos2Z.inj_mul in Hro. change (Zpos one_m) with (2 ^ 52) in Hro.
    replace (e + -52) with (e - 52) in Hro by lia.
    assert (HM : 0 <= Zpos m * 2 ^ 52)
      by (apply Z.mul_nonneg_nonneg; [lia | apply Z.pow_nonneg; lia]).
    destruct (rounds_to_unique _ _ _ _ _ _ HM Hro Hs) as [-> ->].
    unfold outcome. destruct Hv as (He & _).
    destruct (Z.leb_spec e 971); [reflexivity | lia].
Qed.
End Binary64Compare.

(** ** The order of propagated uncertainties *)

Section PropagationOrder.
Import Binary64 Binary64Facts Binary64Compare.
Local Open Scope float_scope.

Lemma unit_all (us : list float) :
  Forall (fun u => in_unit_interval u = true) us -> Forall unit_float us.
Proof.
  intros H. eapply Forall_impl; [exact H|].
  intros u. apply in_unit_interval_unit.
Qed.

(** The accumulator decreases when the uncertainties grow. *)
Lemma fold_anti (us us' : list float) : forall acc acc',
  Forall2 (fun u u' => (u <=? u') = true) us us' ->
  Forall unit_float us -> Forall unit_float us' ->
  unit_float acc -> unit_float acc' ->
  (sf_val (Prim2SF acc') <= sf_val (Prim2SF acc))%Z ->
  (sf_val (Prim2SF (fold_left Pipeline.accumulate us' acc'))
   <= sf_val (Prim2SF (fold_left Pipeline.accumulate us acc)))%Z.
Proof.
  intros acc acc' H2. revert acc acc'.
  induction H2 as [|u u' us us' Hu H2 IH]; intros acc acc' Hall Hall' Ha Ha' Hle;
    [exact Hle|].
  apply Forall_cons in Hall as [Hu1 Hall].
  apply Forall_cons in Hall' as [Hu1' Hall']. cbn [fold_left].
  apply IH; try assumption.
  - apply mul_unit; [exact Ha | now apply sub_unit].
  - apply mul_unit; [exact Ha' | now apply sub_unit].
  - apply mul_mono; try assumption; try now apply sub_unit.
    apply sub_anti; [assumption..|]. now apply unit_leb.
Qed.

Lemma propagate_mono (us us' : list float) :
  Forall2 (fun u u' => (u <=? u') = true) us us' ->
  Forall unit_float us -> Forall unit_float us' ->
  (1 - fold_left Pipeline.accumulate us 1
   <=? 1 - fold_left Pipeline.accumulate us' 1) = true.
Proof.
  intros H2 Hall Hall'.
  pose proof (fold_unit us 1 one_unit Hall) as Hf.
  pose proof (fold_unit us' 1 one_unit Hall') as Hf'.
  apply unit_leb; [now apply sub_unit..|].
  apply sub_anti; [assumption..|].
  apply fold_anti; try assumption; try exact one_unit. lia.
Qed.

(** A step whose uncertainty is zero leaves the accumulator as it is. *)
Lemma accumulate_zero (acc u : float) :
  (u =? 0) = true -> Pipeline.accumulate acc u = acc.
Proof.
  intros Hu. unfold Pipeline.accumulate.
  rewrite (one_minus_zero u (eqb_zero u Hu)). apply mul_one_r.
Qed.

Lemma leb_refl_unit (u : float) : unit_float u -> (u <=? u) = true.
Proof. intros Hu. apply unit_leb; [assumption..|]. lia. Qed.

Lemma Forall2_leb_insert (us vs : list float) (u : float) :
  Forall unit_float us -> Forall unit_float vs -> unit_float u ->
  Forall2 (fun u u' => (u <=? u') = true) (us ++ 0 :: vs) (us ++ u :: vs).
Proof.
  intros Hus Hvs Hu. apply Forall2_app; [|constructor].
  - induction Hus; constructor; [now apply leb_refl_unit | assumption].
  - destruct Hu as [Hn _]. rewrite FloatAxioms.leb_spec, Prim2SF_zero.
    destruct (Prim2SF u) as [s | | | [] m e]; try contradiction;
      [destruct s|]; reflexivity.
  - induction Hvs; constructor; [now apply leb_refl_unit | assumption].
Qed.

Lemma propagate_unit (us : list float) :
  Forall unit_float us ->
  unit_float (1 - fold_left Pipeline.accumulate us 1).
Proof. intros Hus. apply sub_unit, fold_unit; [exact one_unit | exact Hus]. Qed.

Lemma propagate_insert (us vs : list float) (u : float) :
  Forall unit_float us -> Forall unit_float vs -> unit_float u ->
  (1 - fold_left Pipeline.accumulate (us ++ vs) 1
   <=? 1 - fold_left Pipeline.accumulate (us ++ u :: vs) 1) = true.
Proof.
  intros Hus Hvs Hu.
  replace (fold_left Pipeline.accumulate (us ++ vs) 1)
    with (fold_left Pipeline.accumulate (us ++ 0 :: vs) 1).
  - apply propagate_mono.
    + now apply Forall2_leb_insert.
    + apply Forall_app. split; [exact Hus|].
      constructor; [|exact Hvs]. apply in_unit_interval_unit. reflexivity.
    + apply Forall_app. split; [exact Hus|]. now constructor.
  - rewrite !fold_left_app. cbn [fold_left].
    now rewrite accumulate_zero.
Qed.
End PropagationOrder.

(** X6: [propagate_uncertainty] is monotone: when every uncertainty of one
    list is at most the uncertainty at the same place of another, all of
    them between 0 and 1, the propagated value of the first is at most that
    of the second, roundings included. *)
Theorem propagate_uncertainty_monotone
    (steps steps' : list string) (us us' : list float) :
  Forall (fun u => Binary64.in_unit_interval u = true) us ->
  Forall (fun u => Binary64.in_unit_interval u = true) us' ->
  Forall2 (fun u u' => (u <=? u')%float = true) us us' ->
  (Pipeline.propagate_uncertainty steps us
   <=? Pipeline.propagate_uncertainty steps' us')%float = true.
Proof.
  intros Hall Hall' H2. unfold Pipeline.propagate_uncertainty.
  apply propagate_mono; [exact H2 | now apply unit_all..].
Qed.

Lemma propagate_uncertainty_monotone_witness :
  (Pipeline.propagate_uncertainty [] [0.1; 0.3]
   <=? Pipeline.propagate_uncertainty [] [0.2; 0.3])%float = true.
Proof.
  apply propagate_uncertainty_monotone; repeat constructor.
Defined.

(** X7: a step of uncertainty zero is neutral: removing it from the list,
    wherever it stands and whatever the other uncertainties are, does not
    change the propagated value. *)
Theorem propagate_uncertainty_zero_step
    (steps steps' : list string) (us vs : list float) (u : float) :
  (u =? 0)%float = true ->
  Pipeline.propagate_uncertainty steps (us ++ u :: vs)
  = Pipeline.propagate_uncertainty steps' (us ++ vs).
Proof.
  intros Hu. unfold Pipeline.propagate_uncertainty.
  rewrite !fold_left_app. cbn [fold_left].
  now rewrite accumulate_zero.
Qed.

Lemma propagate_uncertainty_zero_step_witness :
  Pipeline.propagate_uncertainty ["a"; "b"; "c"] ([0.1] ++ (-0) :: [0.2])%float
  = Pipeline.propagate_uncertainty ["a"; "c"] ([0.1] ++ [0.2])%float.
Proof.
  apply propagate_uncertainty_zero_step. reflexivity.
Defined.

(** X8: one more step never lowers the overall uncertainty: with all
    uncertainties between 0 and 1, the propagated value of a list is at most
    that of the list with a further uncertainty inserted anywhere. *)
Theorem propagate_uncertainty_further_step
    (steps steps' : list string) (us vs : list float) (u : float) :
  Forall (fun u => Binary64.in_unit_interval u = true) (us ++ u :: vs) ->
  (Pipeline.propagate_uncertainty steps (us ++ vs)
   <=? Pipeline.propagate_uncertainty steps' (us ++ u :: vs))%float = true.
Proof.
  intros Hall. apply unit_all in Hall.
  apply Forall_app in Hall as [Hus Hvs].
  apply Forall_cons in Hvs as [Hu Hvs].
  unfold Pipeline.propagate_uncertainty. now apply propagate_insert.
Qed.

Lemma propagate_uncertainty_further_step_witness :
  (Pipeline.propagate_uncertainty [] ([0.1] ++ [0.2])
   <=? Pipeline.propagate_uncertainty [] ([0.1] ++ 0.5 :: [0.2]))%float = true.
Proof.
  apply propagate_uncertainty_further_step. repeat constructor.
Defined.

(** ** Sums, and the order of strengths *)

Module Binary64Sum.
Import Binary64 Binary64Facts Rounding Binary64Order Binary64Mono
  Binary64Compare.
Local Open Scope Z_scope.

(** A canonical float is its own rounding. *)
Lemma rounds_to_self (m : positive) (e : Z) :
  canonical m e -> rounds_to (Zpos m) e (Zpos m) e.
Proof.
  intros Hc. pose proof (rounds_to_scaled m e 0 Hc ltac:(lia)) as H.
  replace (Zpos m * 2 ^ 0) with (Zpos m) in H by (rewrite Z.pow_0_r; lia).
  now replace (e - 0) with e in H by lia.
Qed.

Lemma outcome_canonical (m : positive) (e : Z) :
  canonical m e -> outcome false (Zpos m) e = S754_finite false m e.
Proof.
  intros (He & _). unfold outcome.
  destruct (Z.leb_spec e 971); [reflexivity | lia].
Qed.

(** The sum of two floats that are not negative and not both zero, as the
    rounding of the exact sum. *)
Lemma SFadd_outcome (x y : spec_float) :
  valid_binary x = true -> valid_binary y = true ->
  sf_nonneg x -> sf_nonneg y -> 0 < sf_val x + sf_val y ->
  exists M E mr er,
    0 <= M /\ 0 <= E + 1074
    /\ M * 2 ^ (E + 1074) = sf_val x + sf_val y
    /\ rounds_to M E mr er
    /\ SF64add x y = outcome false mr er.
Proof.
  intros Hvx Hvy Hx Hy Hpos.
  destruct x as [sx | | | [] mx ex]; try contradiction;
    destruct y as [sy | | | [] my ey]; try contradiction.
  - cbn [sf_val] in Hpos. lia.
  - apply valid_canonical in Hvy. exists (Zpos my), ey, (Zpos my), ey.
    destruct Hvy as (Hey & Hrest).
    split; [lia|]. split; [lia|]. split; [reflexivity|].
    split; [now apply rounds_to_self|].
    cbn [SF64add SFadd]. symmetry. now apply outcome_canonical.
  - apply valid_canonical in Hvx. exists (Zpos mx), ex, (Zpos mx), ex.
    destruct Hvx as (Hex & Hrest).
    split; [lia|]. split; [lia|]. split; [cbn [sf_val]; lia|].
    split; [now apply rounds_to_self|].
    cbn [SF64add SFadd]. symmetry. now apply outcome_canonical.
  - apply valid_canonical in Hvx, Hvy.
    destruct Hvx as (Hex & _), Hvy as (Hey & _).
    cbn [SF64add SFadd].
    destruct (shl_align_spec mx ex (Z.min ex ey)) as (mx' & -> & Hmx' & _).
    destruct (shl_align_spec my ey (Z.min ex ey)) as (my' & -> & Hmy' & _).
    cbn [fst cond_Zopp].
    set (e0 := Z.min ex ey) in *.
    replace (Z.min ex e0) with e0 in * by (unfold e0; lia).
    replace (Z.min ey e0) with e0 in * by (unfold e0; lia).
    destruct (binary_normalize_outcome (Zpos mx' + Zpos my') e0
                ltac:(lia) ltac:(unfold e0; lia))
      as (M & E & mr & er & HM & HE & HV & Hro & Heq).
    exists M, E, mr, er. split; [exact HM|]. split; [exact HE|].
    split; [|split; assumption].
    rewrite HV. cbn [sf_val].
    rewrite Z.mul_add_distr_r, Hmx', Hmy', <- !Z.mul_assoc, <- !Z.pow_add_r
      by (unfold e0; lia).
    f_equal; do 2 f_equal; lia.
Qed.

(** Addition of floats that are not negative is monotone. *)
Lemma SFadd_mono (x y x' y' : spec_float) :
  valid_binary x = true -> valid_binary y = true ->
  valid_binary x' = true -> valid_binary y' = true ->
  sf_nonneg x -> sf_nonneg y -> sf_nonneg x' -> sf_nonneg y' ->
  sf_val x <= sf_val x' -> sf_val y <= sf_val y' ->
  sf_nonneg (SF64add x y) -> sf_nonneg (SF64add x' y') ->
  sf_val (SF64add x y) <= sf_val (SF64add x' y').
Proof.
  intros Hvx Hvy Hvx' Hvy' Hx Hy Hx' Hy' Hxx Hyy Hr Hr'.
  pose proof (sf_val_nonneg x) as Hx0. pose proof (sf_val_nonneg y) as Hy0.
  destruct (Z.eq_dec (sf_val x + sf_val y) 0) as [Hsum | Hsum].
  - (* both are zeros *)
    assert (Hz : sf_val (SF64add x y) = 0).
    { destruct x as [sx | | | [] mx ex]; try contradiction;
        destruct y as [sy | | | [] my ey]; try contradiction.
      - destruct sx, sy; reflexivity.
      - apply valid_canonical in Hvy.
        pose proof (sf_val_pos my ey ltac:(destruct Hvy; lia)). lia.
      - apply valid_canonical in Hvx.
        pose proof (sf_val_pos mx ex ltac:(destruct Hvx; lia)). lia.
      - apply valid_canonical in Hvx.
        pose proof (sf_val_pos mx ex ltac:(destruct Hvx; lia)). lia. }
    rewrite Hz. apply sf_val_nonneg.
  - destruct (SFadd_outcome x y Hvx Hvy Hx Hy ltac:(lia))
      as (M & E & mr & er & HM & HE & HV & Hro & Heq).
    destruct (SFadd_outcome x' y' Hvx' Hvy' Hx' Hy' ltac:(lia))
      as (M' & E' & mr' & er' & HM' & HE' & HV' & Hro' & Heq').
    rewrite Heq in *. rewrite Heq' in *.
    pose proof Hro as (_ & Her & Hmr & _).
    pose proof Hro' as (_ & Her' & Hmr' & _).
    rewrite !outcome_val by (assumption || lia).
    apply (rounds_to_mono M E mr er M' E' mr' er' 1074);
      try lia; try assumption.
Qed.

(** The moving average is monotone in the strength and in the
    observation. *)
Lemma ema_mono (s p s' p' : float) :
  unit_float s -> unit_float p -> unit_float s' -> unit_float p' ->
  sf_val (Prim2SF s) <= sf_val (Prim2SF s') ->
  sf_val (Prim2SF p) <= sf_val (Prim2SF p') ->
  sf_val (Prim2SF ((1 - 0.1) * s + 0.1 * p))
  <= sf_val (Prim2SF ((1 - 0.1) * s' + 0.1 * p')).
Proof.
  intros Hs Hp Hs' Hp' Hss Hpp.
  assert (H9 : unit_float (1 - 0.1))
    by (apply in_unit_interval_unit; reflexivity).
  assert (H1 : unit_float 0.1)
    by (apply in_unit_interval_unit; reflexivity).
  destruct (ema_unit s p Hs Hp) as [Hn _].
  destruct (ema_unit s' p' Hs' Hp') as [Hn' _].
  rewrite !add_spec in *.
  destruct (mul_unit _ _ H9 Hs) as [Ha _].
  destruct (mul_unit _ _ H1 Hp) as [Hb _].
  destruct (mul_unit _ _ H9 Hs') as [Ha' _].
  destruct (mul_unit _ _ H1 Hp') as [Hb' _].
  apply SFadd_mono; try apply Prim2SF_valid; try assumption.
  - apply mul_mono; try assumption. lia.
  - apply mul_mono; try assumption. lia.
Qed.
End Binary64Sum.

Section CausalOrder.
Import Causal Binary64 Binary64Facts Binary64Compare Binary64Sum.
Local Open Scope float_scope.

Lemma record_observations_mono (obs1 obs2 : list float) :
  Forall2 (fun p1 p2 => (p1 <=? p2) = true) obs1 obs2 ->
  Forall unit_float obs1 -> Forall unit_float obs2 ->
  forall edges1 edges2 source target edge1 edge2,
    edges1 !! (source, target) = Some edge1 ->
    edges2 !! (source, target) = Some edge2 ->
    unit_float (strength edge1) -> unit_float (strength edge2) ->
    (strength edge1 <=? strength edge2) = true ->
    exists edge1' edge2',
      record_observations edges1 source target obs1 !! (source, target)
      = Some edge1'
      /\ record_observations edges2 source target obs2 !! (source, target)
         = Some edge2'
      /\ (strength edge1' <=? strength edge2') = true.
Proof.
  induction 1 as [|p1 p2 obs1 obs2 Hp H2 IH]; intros Hall1 Hall2
    edges1 edges2 source target edge1 edge2 He1 He2 Hs1 Hs2 Hle.
  - exists edge1, edge2. auto.
  - apply Forall_cons in Hall1 as [Hp1 Hall1].
    apply Forall_cons in Hall2 as [Hp2 Hall2].
    unfold record_observations. cbn [fold_left].
    apply (IH Hall1 Hall2 _ _ source target
             {| strength := 0.9 * strength edge1 + 0.1 * p1;
                observation_count := observation_count edge1 |}
             {| strength := 0.9 * strength edge2 + 0.1 * p2;
                observation_count := observation_count edge2 |}).
    + rewrite update_causal_strength_lookup, He1.
      now rewrite bool_decide_eq_true_2.
    + rewrite update_causal_strength_lookup, He2.
      now rewrite bool_decide_eq_true_2.
    + exact (ema_unit _ _ Hs1 Hp1).
    + exact (ema_unit _ _ Hs2 Hp2).
    + cbn [strength].
      apply unit_leb; [exact (ema_unit _ _ Hs1 Hp1)
                      | exact (ema_unit _ _ Hs2 Hp2) |].
      apply ema_mono; try assumption; now apply unit_leb.
Qed.
End CausalOrder.

(** X19: the strength is monotone in what is observed.  Two runs of
    observations of one edge, of the same length, all values and both
    starting strengths between 0 and 1: when the first run starts from a
    strength that is not higher and observes at every call a probability
    that is not higher, it ends with a strength that is not higher. *)
Theorem update_causal_strength_monotone
    (edges1 edges2 : gmap (string * string) Causal.CausalEdge)
    (source target : string) (edge1 edge2 : Causal.CausalEdge)
    (observations1 observations2 : list float) :
  edges1 !! (source, target) = Some edge1 ->
  edges2 !! (source, target) = Some edge2 ->
  Binary64.in_unit_interval (Causal.strength edge1) = true ->
  Binary64.in_unit_interval (Causal.strength edge2) = true ->
  (Causal.strength edge1 <=? Causal.strength edge2)%float = true ->
  Forall (fun p => Binary64.in_unit_interval p = true) observations1 ->
  Forall (fun p => Binary64.in_unit_interval p = true) observations2 ->
  Forall2 (fun p1 p2 => (p1 <=? p2)%float = true) observations1 observations2 ->
  exists edge1' edge2',
    Causal.record_observations edges1 source target observations1
      !! (source, target) = Some edge1'
    /\ Causal.record_observations edges2 source target observations2
         !! (source, target) = Some edge2'
    /\ (Causal.strength edge1' <=? Causal.strength edge2')%float = true.
Proof.
  intros He1 He2 Hs1 Hs2 Hle Hall1 Hall2 H2.
  apply (record_observations_mono observations1 observations2 H2
           (unit_all _ Hall1) (unit_all _ Hall2)
           edges1 edges2 source target edge1 edge2 He1 He2);
    [now apply Binary64Facts.in_unit_interval_unit
    | now apply Binary64Facts.in_unit_interval_unit | exact Hle].
Qed.

Lemma update_causal_strength_monotone_witness :
  exists edge1' edge2',
    Causal.record_observations Scenario.one_edge "A" "B" [0.1; 0.5]%float
      !! ("A", "B") = Some edge1'
    /\ Causal.record_observations Scenario.one_edge "A" "B" [0.2; 0.5]%float
         !! ("A", "B") = Some edge2'
    /\ (Causal.strength edge1' <=? Causal.strength edge2')%float = true.
Proof.
  apply (update_causal_strength_monotone Scenario.one_edge Scenario.one_edge
           "A" "B" (Causal.created_edge 0.9) (Causal.created_edge 0.9)
           [0.1; 0.5]%float [0.2; 0.5]%float);
    first [apply lookup_singleton_eq | reflexivity | repeat constructor].
Defined.

(** ** The threshold of the flag *)

Section ThresholdFacts.
Import Binary64 Binary64Facts Binary64Compare.
Local Open Scope float_scope.

(** No float lies strictly between [0.5 - 2^-53] and [0.5 - 2^-54]. *)
Lemma above_threshold (c : float) :
  unit_float c -> (0.4999999999999999 <? c) = true ->
  (0.49999999999999994 <=? c) = true.
Proof.
  intros [Hn _]. rewrite FloatAxioms.ltb_spec, FloatAxioms.leb_spec.
  change (Prim2SF 0.4999999999999999)
    with (S754_finite false 9007199254740990 (-54)).
  change (Prim2SF 0.49999999999999994)
    with (S754_finite false 9007199254740991 (-54)).
  destruct (Prim2SF c) as [s | | | [] m e]; try contradiction.
  - destruct s; discriminate.
  - rewrite SFltb_pos, SFleb_pos. lia.
Qed.

Lemma leb_or_ltb (c d : float) :
  unit_float c -> unit_float d -> (c <=? d) = true \/ (d <? c) = true.
Proof.
  intros Hc Hd.
  destruct (Z.le_gt_cases (sf_val (Prim2SF c)) (sf_val (Prim2SF d))).
  - left. now apply unit_leb.
  - right. now apply unit_ltb.
Qed.

Lemma ltb_false_unit (c d : float) :
  unit_float c -> unit_float d -> (c <=? d) = true -> (d <? c) = false.
Proof.
  intros Hc Hd Hle. apply unit_leb in Hle; [|assumption..].
  destruct (d <? c) eqn:Hlt; [|reflexivity].
  apply unit_ltb in Hlt; [|assumption..]. lia.
Qed.

(** [1 - c > 0.5] in binary64, for a confidence between 0 and 1. *)
Lemma high_uncertainty (c : float) :
  unit_float c ->
  (0.5 <? 1 - c) = (c <=? 0.4999999999999999).
Proof.
  intros Hc.
  assert (H0 : unit_float 0.4999999999999999)
    by (apply in_unit_interval_unit; reflexivity).
  assert (H1 : unit_float 0.49999999999999994)
    by (apply in_unit_interval_unit; reflexivity).
  assert (H5 : unit_float 0.5)
    by (apply in_unit_interval_unit; reflexivity).
  destruct (leb_or_ltb c _ Hc H0) as [Hle | Hlt].
  - rewrite Hle. apply unit_ltb; [exact H5 | now apply sub_unit|].
    apply unit_leb in Hle; [|assumption..].
    apply sub_anti in Hle; [|assumption..].
    assert (Hk : (0.5 <? 1 - 0.4999999999999999) = true) by reflexivity.
    apply unit_ltb in Hk; [|exact H5 | now apply sub_unit]. lia.
  - assert (Hf : (c <=? 0.4999999999999999) = false).
    { destruct (c <=? 0.4999999999999999) eqn:Hle; [|reflexivity].
      apply unit_leb in Hle; [|assumption..].
      apply unit_ltb in Hlt; [|assumption..]. lia. }
    rewrite Hf.
    apply ltb_false_unit; [now apply sub_unit | exact H5 |].
    apply above_threshold in Hlt; [|exact Hc].
    apply unit_leb in Hlt; [|assumption..].
    apply sub_anti in Hlt; [|assumption..].
    change (1 - 0.49999999999999994) with 0.5 in Hlt.
    apply unit_leb; [now apply sub_unit | exact H5 | exact Hlt].
Qed.
End ThresholdFacts.

(** ** The order of floats *)

Section FloatOrder.
Local Open Scope float_scope.

Lemma SFcompare_antisym (x y : spec_float) :
  SFcompare y x = option_map CompOpp (SFcompare x y).
Proof.
  destruct x as [sx | sx | | sx mx ex], y as [sy | sy | | sy my ey];
    cbn [SFcompare option_map]; try reflexivity;
    try (destruct sx; reflexivity); try (destruct sy; reflexivity);
    try (destruct sx, sy; reflexivity).
  f_equal. rewrite (Z.compare_antisym ex ey).
  change (Pos.compare_cont Eq my mx) with (Pos.compare my mx).
  change (Pos.compare_cont Eq mx my) with (Pos.compare mx my).
  rewrite (Pos.compare_antisym mx my).
  destruct sx, sy; cbn [CompOpp]; try reflexivity;
    destruct (ex ?= ey)%Z; cbn [CompOpp]; try reflexivity;
    destruct (mx ?= my)%positive; reflexivity.
Qed.



Lemma ltb_leb (x y : float) : (x <? y) = true -> (x <=? y) = true.
Proof.
  rewrite FloatAxioms.ltb_spec, FloatAxioms.leb_spec. unfold SFltb, SFleb.
  destruct (SFcompare (Prim2SF x) (Prim2SF y)) as [[]|]; congruence.
Qed.

Lemma leb_ltb_false (x y : float) : (y <=? x) = true -> (x <? y) = false.
Proof.
  rewrite FloatAxioms.ltb_spec, FloatAxioms.leb_spec. unfold SFltb, SFleb.
  rewrite (SFcompare_antisym (Prim2SF x) (Prim2SF y)).
  destruct (SFcompare (Prim2SF x) (Prim2SF y)) as [[]|]; cbn; congruence.
Qed.

Lemma ltb_asym (x y : float) : (y <? x) = true -> (x <? y) = false.
Proof. intros H. apply leb_ltb_false, ltb_leb, H. Qed.
End FloatOrder.

(** ** Sorting by insertion

    What holds of [sorted(..., key=lambda x: x[1], reverse=True)] for any
    type of first components, from the two equations of the insertion. *)

Section StableSort.
Local Open Scope float_scope.
Context {A : Type}.
Variable ins : A * float -> list (A * float) -> list (A * float).
Hypothesis ins_nil : forall x, ins x [] = [x].
Hypothesis ins_cons : forall x y l,
  ins x (y :: l) = if snd x <? snd y then y :: ins x l else x :: y :: l.

Lemma ins_perm (x : A * float) (l : list (A * float)) : ins x l ≡ₚ x :: l.
Proof.
  induction l as [|y l IH]; [now rewrite ins_nil|].
  rewrite ins_cons. destruct (snd x <? snd y); [|reflexivity].
  rewrite IH. apply Permutation_swap.
Qed.

Lemma sorted_perm (l : list (A * float)) : foldr ins [] l ≡ₚ l.
Proof.
  induction l as [|x l IH]; [reflexivity|].
  cbn [foldr]. now rewrite ins_perm, IH.
Qed.

Lemma descending_cons (a : float) (l : list float) :
  Order.descending (a :: l) <->
  match l with [] => True | b :: _ => (b <=? a) = true end
  /\ Order.descending l.
Proof. destruct l as [|b l]; cbn [Order.descending]; tauto. Qed.




(** A list that is in order already is left as it is. *)
Lemma sorted_fixed (l : list (A * float)) :
  Order.descending (snd <$> l) -> foldr ins [] l = l.
Proof.
  induction l as [|x l IH]; intros Hd; [reflexivity|].
  rewrite fmap_cons in Hd. apply descending_cons in Hd as [Hhd Hd].
  cbn [foldr]. rewrite (IH Hd).
  destruct l as [|y l]; [apply ins_nil|].
  rewrite ins_cons. now rewrite (leb_ltb_false _ _ Hhd).
Qed.

(** An element above all the others comes first. *)
Lemma sorted_head (pre post : list (A * float)) (x : A * float) :
  Forall (fun y => (snd y <? snd x) = true) (pre ++ post) ->
  head (foldr ins [] (pre ++ x :: post)) = Some x.
Proof.
  intros Hall. apply Forall_app in Hall as [Hpre Hpost].
  induction Hpre as [|p pre Hp Hpre IH].
  - cbn [app foldr].
    destruct (foldr ins [] post) as [|y l] eqn:Hs; [now rewrite ins_nil|].
    rewrite ins_cons.
    assert (Hy : y ∈ post).
    { rewrite <- (sorted_perm post), Hs. left. }
    rewrite Forall_forall in Hpost.
    now rewrite (ltb_asym _ _ (Hpost y Hy)).
  - cbn [app foldr].
    destruct (foldr ins [] (pre ++ x :: post)) as [|y l]; [discriminate|].
    injection IH as ->. now rewrite ins_cons, Hp.
Qed.
End StableSort.

(** ** Suggestions *)

(** X9: the suggestions are those of the sources of the dictionary, one for
    each entry whose source is one of the three known step types and none
    for the others, whatever the contributions are: the list is a
    rearrangement of the suggestions taken in dictionary order. *)
Theorem suggest_uncertainty_reduction_permutation
    (uncertainty_sources : list (string * float)) :
  Suggest.suggest_uncertainty_reduction uncertainty_sources
  ≡ₚ omap (fun item => Suggest.suggestion (fst item)) uncertainty_sources.
Proof.
  unfold Suggest.suggest_uncertainty_reduction, Suggest.sorted_desc.
  now rewrite (sorted_perm Suggest.insert_desc
                 (fun _ => eq_refl) (fun _ _ _ => eq_refl)).
Qed.

(** X10: the sort is stable: a dictionary whose contributions already come in
    descending order, ties included, gets its suggestions in dictionary
    order. *)
Theorem suggest_uncertainty_reduction_stable
    (uncertainty_sources : list (string * float)) :
  Order.descending (snd <$> uncertainty_sources) ->
  Suggest.suggest_uncertainty_reduction uncertainty_sources
  = omap (fun item => Suggest.suggestion (fst item)) uncertainty_sources.
Proof.
  intros Hd. unfold Suggest.suggest_uncertainty_reduction, Suggest.sorted_desc.
  now rewrite (sorted_fixed Suggest.insert_desc
                 (fun _ => eq_refl) (fun _ _ _ => eq_refl) _ Hd).
Qed.

Lemma suggest_uncertainty_reduction_stable_witness :
  Suggest.suggest_uncertainty_reduction
    [("synthesize_answer", 0.4); ("unknown", 0.4); ("interpret_query", 0.2)]%float
  = ["Refine the answer synthesis process for better accuracy.";
     "Clarify the query to reduce ambiguity."].
Proof.
  apply (suggest_uncertainty_reduction_stable
           [("synthesize_answer", 0.4); ("unknown", 0.4);
            ("interpret_query", 0.2)]%float).
  cbn. repeat split.
Defined.

(** X11: the suggestion of the main source comes first: when one known source
    has a contribution strictly above every other entry's, its suggestion
    heads the list, wherever the source stands in the dictionary. *)
Theorem suggest_uncertainty_reduction_main_source
    (before after : list (string * float)) (source : string)
    (contribution : float) (text : string) :
  Forall (fun item => (snd item <? contribution)%float = true)
         (before ++ after) ->
  Suggest.suggestion source = Some text ->
  head (Suggest.suggest_uncertainty_reduction
          (before ++ (source, contribution) :: after)) = Some text.
Proof.
  intros Hall Hs.
  pose proof (sorted_head Suggest.insert_desc
                (fun _ => eq_refl) (fun _ _ _ => eq_refl)
                before after (source, contribution) Hall) as Hh.
  unfold Suggest.suggest_uncertainty_reduction, Suggest.sorted_desc.
  destruct (foldr Suggest.insert_desc [] _) as [|x l]; [discriminate|].
  injection Hh as ->. cbn [omap list_omap fst]. now rewrite Hs.
Qed.

Lemma suggest_uncertainty_reduction_main_source_witness :
  head (Suggest.suggest_uncertainty_reduction
          ([("interpret_query", 0.2)]
           ++ ("analyze_knowledge", 0.5) :: [("synthesize_answer", 0.3)])%float)
  = Some "Gather more relevant information to improve knowledge base.".
Proof.
  apply suggest_uncertainty_reduction_main_source;
    [repeat constructor | reflexivity].
Defined.

(** ** One level of beam search *)

Section OneLevel.
Import Beam.





End OneLevel.



(** ** Bounds of a run *)

(** X13: the overall uncertainty of a run.  When the uncertainty of the
    knowledge step is between 0 and 1, the overall uncertainty returned by
    [reason_with_uncertainty] is between 0 and 1 and never below
    0.2799999999999999, the value propagated from the two constant steps
    alone; and it is 0.6399999999999999 when the knowledge holds no
    relevant fact. *)
Theorem reason_with_uncertainty_overall (np_mean : list float -> float)
    (query : string) (constructed_knowledge : option (list Pipeline.fact))
    (timestamp : Z) (reasoning : string) (overall : float)
    (detailed_steps : list Attribution.detailed_step) :
  Trace.reason_with_uncertainty np_mean query constructed_knowledge timestamp
  = Ok (reasoning, overall, detailed_steps) ->
  Binary64.in_unit_interval
    (Trace.knowledge_uncertainty np_mean constructed_knowledge) = true ->
  Binary64.in_unit_interval overall = true
  /\ (0.2799999999999999 <=? overall)%float = true
  /\ (constructed_knowledge = None \/ constructed_knowledge = Some [] ->
      overall = 0.6399999999999999%float).
Proof.
  intros Hrun Hk. apply Binary64Facts.in_unit_interval_unit in Hk.
  assert (H1 : Binary64.unit_float 0.1)
    by (apply Binary64Facts.in_unit_interval_unit; reflexivity).
  assert (H2 : Binary64.unit_float 0.2)
    by (apply Binary64Facts.in_unit_interval_unit; reflexivity).
  assert (Ho : overall
               = Pipeline.propagate_uncertainty []
                   [0.1%float;
                    Trace.knowledge_uncertainty np_mean constructed_knowledge;
                    0.2%float]).
  { destruct constructed_knowledge as [[|fact facts]|];
      injection Hrun as _ <- _; reflexivity. }
  split; [|split].
  - rewrite Ho. apply Binary64Facts.unit_in_unit_interval.
    apply propagate_unit.
    repeat first [apply Forall_nil_2 | apply Forall_cons_2]; assumption.
  - rewrite Ho.
    apply (propagate_insert [0.1%float] [0.2%float]);
      repeat first [apply Forall_nil_2 | apply Forall_cons_2]; assumption.
  - rewrite Ho. intros [-> | ->]; reflexivity.
Qed.

Lemma reason_with_uncertainty_overall_witness :
  exists reasoning overall detailed_steps,
    Trace.reason_with_uncertainty Scenario.mean "q"
      (Some Scenario.knowledge_facts) 0
    = Ok (reasoning, overall, detailed_steps)
    /\ Binary64.in_unit_interval overall = true
    /\ (0.2799999999999999 <=? overall)%float = true.
Proof.
  eexists _, _, _. split; [reflexivity|].
  destruct (reason_with_uncertainty_overall Scenario.mean "q"
              (Some Scenario.knowledge_facts) 0 _ _ _ eq_refl eq_refl)
    as (Hu & Hf & _).
  split; [exact Hu | exact Hf].
Defined.

(** X14: which conclusions are flagged.  For a result whose confidence [c] is
    a float between 0 and 1, or is missing and so taken as 0.5,
    [estimate_uncertainty] returns [1 - c], and [adjust_conclusion] at that
    uncertainty returns the result untouched unless
    [c <= 0.4999999999999999], in which case a conclusion that is a string
    receives the suffix.  The bound is not 0.5: the confidence
    0.49999999999999994 lies below 0.5 and is not flagged, as [1 - c] rounds
    to 0.5. *)
Theorem high_uncertainty_flag (reasoning_result : gmap string pyval)
    (c : float) :
  default (PFloat 0.5) (reasoning_result !! "confidence") = PFloat c ->
  Binary64.in_unit_interval c = true ->
  Conclusion.estimate_uncertainty reasoning_result = Ok (PFloat (1 - c))
  /\ ((c <=? 0.4999999999999999)%float = false ->
      Conclusion.adjust_conclusion reasoning_result (1 - c)
      = Ok reasoning_result)
  /\ (forall text,
        (c <=? 0.4999999999999999)%float = true ->
        reasoning_result !! "conclusion" = Some (PStr text) ->
        Conclusion.adjust_conclusion reasoning_result (1 - c)
        = Ok (<["conclusion" := PStr (text +:+ " (High uncertainty)")]>
                reasoning_result)).
Proof.
  intros Hc Hunit. apply Binary64Facts.in_unit_interval_unit in Hunit.
  pose proof (high_uncertainty c Hunit) as Hflag.
  split; [|split].
  - unfold Conclusion.estimate_uncertainty. now rewrite Hc.
  - intros Hle. unfold Conclusion.adjust_conclusion.
    now rewrite Hflag, Hle.
  - intros text Hle Htext. unfold Conclusion.adjust_conclusion.
    rewrite Hflag, Hle, Htext. reflexivity.
Qed.

Lemma high_uncertainty_flag_witness :
  Conclusion.adjust_conclusion
    (<["confidence" := PFloat 0.49999999999999994]> Examples.bare_result)
    (1 - 0.49999999999999994)
  = Ok (<["confidence" := PFloat 0.49999999999999994]> Examples.bare_result).
Proof.
  apply (high_uncertainty_flag
           (<["confidence" := PFloat 0.49999999999999994]> Examples.bare_result)
           0.49999999999999994);
    reflexivity.
Defined.

(** ** Beyond the first level *)

Section Deeper.
Import Beam.
Variable get_neighbors : pyval -> result (list entity).
Variable llm : option (string -> list entity -> result float).

Lemma mapM_inv {A B : Type} (f : A -> result B) (l : list A) :
  forall k, mapM f l = Ok k -> Forall2 (fun x y => f x = Ok y) l k.
Proof.
  induction l as [|x l IH]; intros k; cbn [mapM].
  - intros [= <-]. constructor.
  - destruct (f x) as [y|e] eqn:Hy; cbn [mbind result_bind]; [|discriminate].
    destruct (mapM f l) as [k'|e]; cbn [mbind result_bind mret result_ret];
      [|discriminate].
    intros [= <-]. constructor; [exact Hy | now apply IH].
Qed.

(** A scored beam has no expansion: either the expansion raises or the
    graph gives no neighbour to the score. *)
Lemma expand_scored (query : string) (b : beam)
    (expansion : list (list entity * float)) :
  is_scored b = true ->
  expand get_neighbors llm query b = Ok expansion -> expansion = [].
Proof.
  destruct b as [path | path score]; [discriminate|]. intros _.
  unfold expand. cbn [beam_last mbind result_bind].
  destruct (get_neighbors (PFloat score)) as [[|n ns]|e];
    cbn [mbind result_bind mapM beam_append mret result_ret];
    [now intros [= <-] | discriminate..].
Qed.

Lemma step_scored (query : string) (beam_width : Z) (beams beams' : list beam) :
  Forall (fun b => is_scored b = true) beams ->
  step get_neighbors llm query beam_width beams = Ok beams' -> beams' = [].
Proof.
  intros Hall. unfold step.
  destruct (mapM _ beams) as [expansions|e] eqn:Hm;
    cbn [mbind result_bind mret result_ret]; [|discriminate].
  apply mapM_inv in Hm.
  assert (Hnil : concat expansions = []).
  { induction Hm as [|b x beams expansions Hb Hm IH]; [reflexivity|].
    apply Forall_cons in Hall as [Hs Hall].
    rewrite (expand_scored query b x Hs Hb). cbn [concat app]. now apply IH. }
  rewrite Hnil. intros [= <-].
  unfold slice_to. cbn [sorted_desc foldr length].
  destruct (0 <=? beam_width)%Z; now rewrite take_nil.
Qed.

Lemma step_is_scored (query : string) (beam_width : Z)
    (beams beams' : list beam) :
  step get_neighbors llm query beam_width beams = Ok beams' ->
  Forall (fun b => is_scored b = true) beams'.
Proof.
  unfold step. destruct (mapM _ beams) as [expansions|e];
    cbn [mbind result_bind mret result_ret]; [|discriminate].
  intros [= <-]. apply Forall_fmap, Forall_forall. now intros [path score] _.
Qed.
End Deeper.

(** X15: a search deeper than one level never returns a path.  Whatever the
    seeding, the graph, the model and the width are, when [beam_search]
    returns with a depth of 2 or more, it returns the empty list: the
    second pass reads the score of each beam as its last entity, and either
    raises or finds nothing to extend. *)
Theorem beam_search_deeper_is_empty
    (get_initial_entities : string -> result (list Beam.entity))
    (get_neighbors : pyval -> result (list Beam.entity))
    (llm : option (string -> list Beam.entity -> result float))
    (query : string) (beam_width max_depth : Z) (beams : list Beam.beam) :
  (2 <= max_depth)%Z ->
  Beam.beam_search get_initial_entities get_neighbors llm
    query beam_width max_depth = Ok beams ->
  beams = [].
Proof.
  intros Hdepth. unfold Beam.beam_search.
  destruct (get_initial_entities query) as [initial_entities|e];
    cbn [mbind result_bind]; [|discriminate].
  destruct (Z.to_nat max_depth) as [|[|n]] eqn:Hn; try lia.
  cbn [Beam.iterate].
  destruct (Beam.step _ _ _ _ _) as [beams1|e] eqn:H1;
    cbn [mbind result_bind]; [|discriminate].
  apply step_is_scored in H1.
  destruct (Beam.step _ _ _ _ beams1) as [beams2|e] eqn:H2;
    cbn [mbind result_bind]; [|discriminate].
  apply step_scored in H2; [|exact H1]. subst beams2.
  rewrite iterate_nil. now intros [= <-].
Qed.

Lemma beam_search_deeper_is_empty_witness :
  exists beams,
    Beam.beam_search Scenario.get_initial_entities
      (fun v => match v with PStr _ => Ok ["A"] | _ => Ok [] end)
      (Some Scenario.score_path) "q" 2 3 = Ok beams
    /\ beams = [].
Proof.
  eexists. split; [vm_compute; reflexivity|].
  apply (beam_search_deeper_is_empty Scenario.get_initial_entities
           (fun v => match v with PStr _ => Ok ["A"] | _ => Ok [] end)
           (Some Scenario.score_path) "q" 2 3 []);
    [lia | vm_compute; reflexivity].
Defined.

(** ** The keys of the attribution *)

(** X20: the keys of the attribution are the step types of the trace: a type
    has an entry exactly when some step of the trace has that type, whatever
    the uncertainties are. *)
Theorem analyze_uncertainty_sources_keys
    (detailed_steps : list Attribution.detailed_step) (t : string) :
  is_Some (Attribution.analyze_uncertainty_sources detailed_steps !! t)
  <-> t ∈ Attribution.type <$> detailed_steps.
Proof.
  unfold Attribution.analyze_uncertainty_sources.
  rewrite (fold_insert_lookup
             (fun u => if (0 <? Attribution.py_sum
                                  (Attribution.uncertainty <$> detailed_steps))%float
                       then (u / Attribution.py_sum
                                   (Attribution.uncertainty <$> detailed_steps))%float
                       else 0%float)).
  destruct (last _) as [step|] eqn:Hlast.
  - split; [intros _ | eauto].
    apply last_Some_elem_of, list_elem_of_filter in Hlast as [Ht Hin].
    apply list_elem_of_fmap. exists step. auto.
  - rewrite lookup_empty. split; [intros [? ?]; discriminate|].
    intros (step & -> & Hin)%list_elem_of_fmap. exfalso.
    apply last_None in Hlast.
    assert (Hf : step ∈ filter (fun s => Attribution.type s
                                         = Attribution.type step)
                         detailed_steps)
      by (apply list_elem_of_filter; auto).
    rewrite Hlast in Hf. now apply elem_of_nil in Hf.
Qed.

(** ** The errors of the adjustment *)

(** X21: the errors of [adjust_conclusion].  It raises only when the
    uncertainty is above 0.5: [KeyError] when the result has no conclusion
    and does have none in that case, [TypeError] for a conclusion that is
    neither a string nor a list.  With an uncertainty that is not above 0.5,
    NaN included, it raises nothing. *)
Theorem adjust_conclusion_error
    (reasoning_result : gmap string pyval) (uncertainty : float) :
  (forall e,
     Conclusion.adjust_conclusion reasoning_result uncertainty = Err e ->
     (0.5 <? uncertainty)%float = true
     /\ ((e = KeyError /\ reasoning_result !! "conclusion" = None)
         \/ (e = TypeError
             /\ exists v, reasoning_result !! "conclusion" = Some v
                          /\ (forall s, v <> PStr s)
                          /\ (forall items, v <> PList items))))
  /\ ((0.5 <? uncertainty)%float = true ->
      reasoning_result !! "conclusion" = None ->
      Conclusion.adjust_conclusion reasoning_result uncertainty
      = Err KeyError).
Proof.
  unfold Conclusion.adjust_conclusion. split.
  - intros e. destruct (0.5 <? uncertainty)%float; [|discriminate].
    destruct (reasoning_result !! "conclusion") as [v|];
      cbn [from_option mbind result_bind].
    + destruct v; cbn [Conclusion.iadd_str mbind result_bind mret result_ret];
        try discriminate;
        (intros [= <-]; split; [reflexivity|]; right; split; [reflexivity|];
         eexists; split; [reflexivity|]; split; intros; discriminate).
    + intros [= <-]. split; [reflexivity|]. now left.
  - intros -> ->. reflexivity.
Qed.

(** ** A search without a model *)

Section NoModel.
Import Beam.

Lemma mapM_err {A B : Type} (f : A -> result B) (e : pyerror) (l : list A) :
  (forall x, x ∈ l -> (exists y, f x = Ok y) \/ f x = Err e) ->
  (exists x, x ∈ l /\ f x = Err e) ->
  mapM f l = Err e.
Proof.
  induction l as [|x l IH]; intros Hall (x0 & Hin & Hx0).
  - now apply elem_of_nil in Hin.
  - cbn [mapM]. destruct (Hall x ltac:(left)) as [[y Hy] | Hx].
    + rewrite Hy. cbn [mbind result_bind].
      rewrite IH; [reflexivity | intros z Hz; apply Hall; now right |].
      apply elem_of_cons in Hin as [-> | Hin]; [congruence | eauto].
    + now rewrite Hx.
Qed.
End NoModel.

(** X22: a search without a language model.  On an engine whose [llm] is
    still [None], when the seeding and the graph answer and some initial
    entity has a neighbour, [beam_search] raises [AttributeError] at every
    depth of 1 or more, whatever the width: no path can be scored. *)
Theorem beam_search_without_model
    (get_initial_entities : string -> result (list Beam.entity))
    (get_neighbors : pyval -> result (list Beam.entity))
    (query : string) (beam_width max_depth : Z)
    (initial_entities : list Beam.entity)
    (neighbors : Beam.entity -> list Beam.entity) :
  get_initial_entities query = Ok initial_entities ->
  (forall e, e ∈ initial_entities -> get_neighbors (PStr e) = Ok (neighbors e)) ->
  (exists e, e ∈ initial_entities /\ neighbors e <> []) ->
  (1 <= max_depth)%Z ->
  Beam.beam_search get_initial_entities get_neighbors None
    query beam_width max_depth = Err AttributeError.
Proof.
  intros Hinit Hnb (e0 & He0 & Hne) Hdepth.
  unfold Beam.beam_search. rewrite Hinit. cbn [mbind result_bind].
  destruct (Z.to_nat max_depth) as [|n] eqn:Hn; [lia|].
  cbn [Beam.iterate]. unfold Beam.step.
  assert (Hexp : forall e, e ∈ initial_entities ->
            Beam.expand get_neighbors None query (Beam.Path [e])
            = match neighbors e with
              | [] => Ok []
              | _ :: _ => Err AttributeError
              end).
  { intros e He. unfold Beam.expand.
    cbn [Beam.beam_last last fmap option_fmap option_map from_option
           mbind result_bind].
    rewrite (Hnb e He). cbn [mbind result_bind].
    destruct (neighbors e) as [|n' ns]; reflexivity. }
  rewrite (mapM_err _ AttributeError); [reflexivity | |].
  - intros b (e & -> & He)%list_elem_of_fmap. rewrite (Hexp e He).
    destruct (neighbors e); eauto.
  - exists (Beam.Path [e0]). split.
    + apply list_elem_of_fmap. eauto.
    + rewrite (Hexp e0 He0). now destruct (neighbors e0).
Qed.

Lemma beam_search_without_model_witness :
  Beam.beam_search Scenario.get_initial_entities Scenario.get_neighbors None
    "q" 2 1 = Err AttributeError.
Proof.
  apply (beam_search_without_model Scenario.get_initial_entities
           Scenario.get_neighbors "q" 2 1 ["X"; "Y"] (fun _ => ["A"; "B"])).
  - reflexivity.
  - reflexivity.
  - exists "X". split; [left | discriminate].
  - lia.
Defined.

(** ** The number of suggestions *)

Section SuggestCount.
Import Suggest.

Lemma suggestion_inj (a b : string) (text : string) :
  suggestion a = Some text -> suggestion b = Some text -> a = b.
Proof.
  unfold suggestion.
  destruct (String.eqb_spec a "interpret_query") as [-> | _];
    [|destruct (String.eqb_spec a "analyze_knowledge") as [-> | _];
      [|destruct (String.eqb_spec a "synthesize_answer") as [-> | _];
        [|discriminate]]];
    intros [= <-];
    (destruct (String.eqb_spec b "interpret_query") as [-> | _];
     [|destruct (String.eqb_spec b "analyze_knowledge") as [-> | _];
       [|destruct (String.eqb_spec b "synthesize_answer") as [-> | _];
         [|discriminate]]]);
    intros [=]; reflexivity.
Qed.

Lemma suggestion_known (a : string) (text : string) :
  suggestion a = Some text ->
  text ∈ ["Clarify the query to reduce ambiguity.";
          "Gather more relevant information to improve knowledge base.";
          "Refine the answer synthesis process for better accuracy."].
Proof.
  unfold suggestion.
  destruct (String.eqb a "interpret_query");
    [|destruct (String.eqb a "analyze_knowledge");
      [|destruct (String.eqb a "synthesize_answer"); [|discriminate]]];
    intros [= <-]; rewrite !elem_of_cons; auto.
Qed.

Lemma omap_suggestion_NoDup (items : list (string * float)) :
  NoDup (fst <$> items) ->
  NoDup (omap (fun item => suggestion (fst item)) items).
Proof.
  induction items as [|item items IH]; [constructor|].
  rewrite fmap_cons, NoDup_cons. intros [Hnotin Hnd].
  cbn [omap list_omap]. fold (omap (fun item => suggestion (fst item)) items).
  destruct (suggestion (fst item)) as [text|] eqn:Hs; [|now apply IH].
  apply NoDup_cons. split; [|now apply IH].
  intros (item' & Hin & Hs')%list_elem_of_omap. apply Hnotin.
  rewrite (suggestion_inj _ _ _ Hs Hs').
  apply list_elem_of_fmap. eauto.
Qed.
End SuggestCount.

(** X23: the keys of a dictionary being distinct,
    [suggest_uncertainty_reduction] never repeats a suggestion and never
    returns more than three. *)
Theorem suggest_uncertainty_reduction_at_most_three
    (uncertainty_sources : list (string * float)) :
  NoDup (fst <$> uncertainty_sources) ->
  NoDup (Suggest.suggest_uncertainty_reduction uncertainty_sources)
  /\ length (Suggest.suggest_uncertainty_reduction uncertainty_sources) <= 3.
Proof.
  intros Hkeys.
  assert (Hperm : Suggest.suggest_uncertainty_reduction uncertainty_sources
                  ≡ₚ omap (fun item => Suggest.suggestion (fst item))
                       uncertainty_sources).
  { unfold Suggest.suggest_uncertainty_reduction, Suggest.sorted_desc.
    now rewrite (sorted_perm Suggest.insert_desc
                   (fun _ => eq_refl) (fun _ _ _ => eq_refl)). }
  assert (Hnd : NoDup (Suggest.suggest_uncertainty_reduction
                         uncertainty_sources))
    by (rewrite Hperm; now apply omap_suggestion_NoDup).
  split; [exact Hnd|].
  change 3 with (length ["Clarify the query to reduce ambiguity.";
          "Gather more relevant information to improve knowledge base.";
          "Refine the answer synthesis process for better accuracy."]).
  apply submseteq_length, NoDup_submseteq; [exact Hnd|].
  intros text. rewrite Hperm.
  intros (item & _ & Hs)%list_elem_of_omap.
  exact (suggestion_known _ _ Hs).
Qed.

Lemma suggest_uncertainty_reduction_at_most_three_witness :
  NoDup (Suggest.suggest_uncertainty_reduction
           [("interpret_query", 0.2); ("verify_answer", 0.5);
            ("analyze_knowledge", 0.3)]%float)
  /\ length (Suggest.suggest_uncertainty_reduction
               [("interpret_query", 0.2); ("verify_answer", 0.5);
                ("analyze_knowledge", 0.3)]%float) <= 3.
Proof.
  apply suggest_uncertainty_reduction_at_most_three.
  repeat (apply NoDup_cons; split;
          [rewrite ?elem_of_cons, elem_of_nil; intuition discriminate|]).
  apply NoDup_nil_2.
Defined.

(** ** The default plan *)

(** What a run of the default plan returns. *)
Lemma run_default_plan (np_mean : list float -> float)
    (query : string) (constructed_knowledge : option (list Pipeline.fact))
    (timestamp : Z) :
  Trace.reason_with_uncertainty np_mean query constructed_knowledge timestamp
  = Ok (Trace.default_reasoning,
        Pipeline.propagate_uncertainty []
          [0.1%float;
           Trace.knowledge_uncertainty np_mean constructed_knowledge;
           0.2%float],
        [Scenario.executed "interpret_query" 0.1;
         Scenario.executed "analyze_knowledge"
           (Trace.knowledge_uncertainty np_mean constructed_knowledge);
         Scenario.executed "synthesize_answer" 0.2]).
Proof. destruct constructed_knowledge as [[|fact facts]|]; reflexivity. Qed.

Lemma default_attribution (total : float) (u1 u2 u3 : float) :
  let sources : gmap string float :=
    <["synthesize_answer" := u3]>
      (<["analyze_knowledge" := u2]> (<["interpret_query" := u1]> ∅)) in
  size sources = 3%nat
  /\ map_to_list sources
     ≡ₚ [("synthesize_answer", u3); ("analyze_knowledge", u2);
         ("interpret_query", u1)]
  /\ forall t, is_Some (sources !! t) <-> t ∈ Trace.default_types.
Proof.
  cbv zeta. split; [|split].
  - rewrite !map_size_insert_None; [now rewrite map_size_empty | ..];
      now simplify_map_eq.
  - rewrite !map_to_list_insert; [now rewrite map_to_list_empty | ..];
      now simplify_map_eq.
  - intros t. unfold Trace.default_types.
    rewrite !elem_of_cons, elem_of_nil.
    destruct (decide (t = "synthesize_answer")) as [->|];
      [simplify_map_eq; split; [tauto | eauto]|].
    destruct (decide (t = "analyze_knowledge")) as [->|];
      [simplify_map_eq; split; [tauto | eauto]|].
    destruct (decide (t = "interpret_query")) as [->|];
      [simplify_map_eq; split; [tauto | eauto]|].
    simplify_map_eq. split; [intros [? ?]; discriminate | tauto].
Qed.


(** X17: on the trace of the default plan no contribution is overwritten:
    the attribution has an entry for each of the three step types and for
    nothing else. *)
Theorem default_trace_attribution (np_mean : list float -> float)
    (query : string) (constructed_knowledge : option (list Pipeline.fact))
    (timestamp : Z) (reasoning : string) (overall : float)
    (detailed_steps : list Attribution.detailed_step) :
  Trace.reason_with_uncertainty np_mean query constructed_knowledge timestamp
  = Ok (reasoning, overall, detailed_steps) ->
  size (Attribution.analyze_uncertainty_sources detailed_steps) = 3%nat
  /\ forall t,
       is_Some (Attribution.analyze_uncertainty_sources detailed_steps !! t)
       <-> t ∈ Trace.default_types.
Proof.
  rewrite run_default_plan. intros [= _ _ <-].
  unfold Attribution.analyze_uncertainty_sources. cbn [fold_left].
  cbn [Attribution.type Attribution.uncertainty Scenario.executed].
  match goal with
  | |- context [<[_ := ?u3]> (<[_ := ?u2]> (<[_ := ?u1]> ∅))] =>
      destruct (default_attribution 0 u1 u2 u3) as (Hsize & _ & Hdom)
  end.
  split; [exact Hsize | exact Hdom].
Qed.

Lemma default_trace_attribution_witness :
  exists reasoning overall detailed_steps,
    Trace.reason_with_uncertainty Scenario.mean "q"
      (Some Scenario.knowledge_facts) 0
    = Ok (reasoning, overall, detailed_steps)
    /\ size (Attribution.analyze_uncertainty_sources detailed_steps) = 3%nat
    /\ forall t,
         is_Some (Attribution.analyze_uncertainty_sources detailed_steps !! t)
         <-> t ∈ Trace.default_types.
Proof.
  eexists _, _, _. split; [reflexivity|].
  exact (default_trace_attribution Scenario.mean "q"
           (Some Scenario.knowledge_facts) 0 _ _ _ eq_refl).
Defined.

(** X18: the three step types of the default plan are known sources: whatever
    order the attribution of a run is read in, the suggestions are the
    three known ones, each once. *)
Theorem default_trace_suggestions (np_mean : list float -> float)
    (query : string) (constructed_knowledge : option (list Pipeline.fact))
    (timestamp : Z) (reasoning : string) (overall : float)
    (detailed_steps : list Attribution.detailed_step)
    (items : list (string * float)) :
  Trace.reason_with_uncertainty np_mean query constructed_knowledge timestamp
  = Ok (reasoning, overall, detailed_steps) ->
  items ≡ₚ map_to_list (Attribution.analyze_uncertainty_sources detailed_steps) ->
  Suggest.suggest_uncertainty_reduction items
  ≡ₚ ["Refine the answer synthesis process for better accuracy.";
      "Gather more relevant information to improve knowledge base.";
      "Clarify the query to reduce ambiguity."].
Proof.
  rewrite run_default_plan. intros [= _ _ <-].
  unfold Attribution.analyze_uncertainty_sources. cbn [fold_left].
  cbn [Attribution.type Attribution.uncertainty Scenario.executed].
  match goal with
  | |- context [<[_ := ?u3]> (<[_ := ?u2]> (<[_ := ?u1]> ∅))] =>
      destruct (default_attribution 0 u1 u2 u3) as (_ & Hitems & _)
  end.
  rewrite Hitems. intros Hperm.
  unfold Suggest.suggest_uncertainty_reduction, Suggest.sorted_desc.
  rewrite (sorted_perm Suggest.insert_desc
             (fun _ => eq_refl) (fun _ _ _ => eq_refl)), Hperm.
  reflexivity.
Qed.

Lemma default_trace_suggestions_witness :
  exists reasoning overall detailed_steps,
    Trace.reason_with_uncertainty Scenario.mean "q"
      (Some Scenario.knowledge_facts) 0
    = Ok (reasoning, overall, detailed_steps)
    /\ Suggest.suggest_uncertainty_reduction
         (map_to_list (Attribution.analyze_uncertainty_sources detailed_steps))
       ≡ₚ ["Refine the answer synthesis process for better accuracy.";
           "Gather more relevant information to improve knowledge base.";
           "Clarify the query to reduce ambiguity."].
Proof.
  eexists _, _, _. split; [reflexivity|].
  exact (default_trace_suggestions Scenario.mean "q"
           (Some Scenario.knowledge_facts) 0 _ _ _ _ eq_refl
           (reflexivity _)).
Defined.
